(** * LightOS model compiler: graph passes of [tools/model_compiler.py]

    A shallow embedding of the graph IR ([GraphNode], [ComputationalGraph]),
    the compilation statistics and the optimisation passes of
    [ModelCompiler] (constant folding, dead code elimination, operator
    fusion, the driver [compile] and [profile_graph]), followed by lemmas
    about the passes and by the properties C1 to C10 that the specification
    states for them.

    Python integers are [Z], lists are [list] (indexed with stdpp's lookup
    and [delete]), [Set[int]] is [gset Z], dictionaries are [gmap], and
    Python floats are binary64 primitive floats.  Methods that mutate
    [self.stats] or the graph in place take the old value and return the
    new one. *)

From Stdlib Require Import ZArith List Lia PrimFloat Uint63.
From stdpp Require Import gmap strings list pretty.

Local Open Scope Z_scope.
Set Warnings "-clear-no-such-hyp".

(** ** Data model *)

Inductive OpType : Set :=
  | MATMUL | CONV2D
  | RELU | GELU | SILU | SOFTMAX
  | LAYERNORM | BATCHNORM | RMSNORM
  | ATTENTION | MULTI_HEAD_ATTENTION
  | ADD | MUL
  | FUSED_MATMUL_RELU | FUSED_MATMUL_GELU
  | FUSED_CONV_BATCHNORM_RELU | FUSED_LAYERNORM_ATTENTION.

#[global] Instance OpType_eq_dec : EqDecision OpType.
Proof. solve_decision. Defined.

(** [OpType.X.name]: the name of the enumeration member. *)
Definition op_name (op : OpType) : string :=
  match op with
  | MATMUL => "MATMUL" | CONV2D => "CONV2D"
  | RELU => "RELU" | GELU => "GELU" | SILU => "SILU" | SOFTMAX => "SOFTMAX"
  | LAYERNORM => "LAYERNORM" | BATCHNORM => "BATCHNORM" | RMSNORM => "RMSNORM"
  | ATTENTION => "ATTENTION" | MULTI_HEAD_ATTENTION => "MULTI_HEAD_ATTENTION"
  | ADD => "ADD" | MUL => "MUL"
  | FUSED_MATMUL_RELU => "FUSED_MATMUL_RELU"
  | FUSED_MATMUL_GELU => "FUSED_MATMUL_GELU"
  | FUSED_CONV_BATCHNORM_RELU => "FUSED_CONV_BATCHNORM_RELU"
  | FUSED_LAYERNORM_ATTENTION => "FUSED_LAYERNORM_ATTENTION"
  end.

(** [OpType.X.value]. *)
Definition op_value (op : OpType) : string :=
  match op with
  | MATMUL => "MatMul" | CONV2D => "Conv2D"
  | RELU => "ReLU" | GELU => "GELU" | SILU => "SiLU" | SOFTMAX => "Softmax"
  | LAYERNORM => "LayerNorm" | BATCHNORM => "BatchNorm" | RMSNORM => "RMSNorm"
  | ATTENTION => "Attention" | MULTI_HEAD_ATTENTION => "MultiHeadAttention"
  | ADD => "Add" | MUL => "Multiply"
  | FUSED_MATMUL_RELU => "FusedMatMulReLU"
  | FUSED_MATMUL_GELU => "FusedMatMulGELU"
  | FUSED_CONV_BATCHNORM_RELU => "FusedConvBNReLU"
  | FUSED_LAYERNORM_ATTENTION => "FusedLayerNormAttention"
  end.

Inductive DataType : Set := FP32 | FP16 | BF16 | FP8 | INT8 | INT4.

Record TensorShape : Type := mkTensorShape {
  dims : list Z;
  dtype : DataType
}.


(** Values stored in a node's [attributes] dictionary ([Dict[str, any]]). *)
Inductive PyVal : Type :=
  | PyInt (z : Z)
  | PyStr (s : string)
  | PyBool (b : bool)
  | PyFloat (f : float).

Record GraphNode : Type := mkGraphNode {
  id : Z;
  op_type : OpType;
  name : string;
  inputs : list Z;
  outputs : list Z;
  attributes : gmap string PyVal;
  execution_time_ms : float;
  memory_usage_mb : float
}.

(** The dataclass constructor with the two profiling fields defaulted. *)
Definition GraphNode_new (id : Z) (op_type : OpType) (name : string)
    (inputs outputs : list Z) (attributes : gmap string PyVal) : GraphNode :=
  mkGraphNode id op_type name inputs outputs attributes 0%float 0%float.

Record ComputationalGraph : Type := mkComputationalGraph {
  nodes : list GraphNode;
  tensors : gmap Z TensorShape;
  input_ids : list Z;
  output_ids : list Z;
  optimized : bool
}.

(** The dataclass constructor; [__post_init__] clears [optimized]. *)
Definition ComputationalGraph_new (nodes : list GraphNode)
    (tensors : gmap Z TensorShape) (input_ids output_ids : list Z)
    : ComputationalGraph :=
  mkComputationalGraph nodes tensors input_ids output_ids false.

Definition set_nodes (graph : ComputationalGraph) (ns : list GraphNode)
    : ComputationalGraph :=
  mkComputationalGraph ns (tensors graph) (input_ids graph)
                       (output_ids graph) (optimized graph).

Definition set_optimized (graph : ComputationalGraph) (b : bool)
    : ComputationalGraph :=
  mkComputationalGraph (nodes graph) (tensors graph) (input_ids graph)
                       (output_ids graph) b.

Record CompilationStats : Type := mkCompilationStats {
  original_ops : Z;
  optimized_ops : Z;
  ops_fused : Z;
  constants_folded : Z;
  dead_ops_removed : Z;
  compilation_time_ms : float
}.

(** [CompilationStats.__init__] *)
Definition CompilationStats_new : CompilationStats :=
  mkCompilationStats 0 0 0 0 0 0%float.

Record ModelCompiler : Type := mkModelCompiler {
  optimization_level : Z;
  stats : CompilationStats
}.

(** [ModelCompiler.__init__] *)
Definition ModelCompiler_new (optimization_level : Z) : ModelCompiler :=
  mkModelCompiler optimization_level CompilationStats_new.

Definition with_stats (self : ModelCompiler) (st : CompilationStats)
    : ModelCompiler :=
  mkModelCompiler (optimization_level self) st.

(** [len(xs)] as a Python integer. *)
Definition len {A} (xs : list A) : Z := Z.of_nat (length xs).

(** ** Python list and loop helpers *)

(** [enumerate(xs)], with the running index made explicit. *)
Fixpoint enumerate_from {A} (start : nat) (xs : list A) : list (nat * A) :=
  match xs with
  | [] => []
  | x :: xs' => (start, x) :: enumerate_from (S start) xs'
  end.

Definition enumerate {A} (xs : list A) : list (nat * A) := enumerate_from 0 xs.

(** [xs.pop()]: the last element and the list without it; [None] on the
    empty list (where the [while worklist:] guard has already stopped). *)
Fixpoint list_pop {A} (xs : list A) : option (list A * A) :=
  match xs with
  | [] => None
  | x :: xs' =>
      match list_pop xs' with
      | None => Some ([], x)
      | Some (rest, y) => Some (x :: rest, y)
      end
  end.

(** ** Constant folding *)

Definition add_constants_folded (st : CompilationStats) (k : Z)
    : CompilationStats :=
  mkCompilationStats (original_ops st) (optimized_ops st) (ops_fused st)
    (constants_folded st + k) (dead_ops_removed st) (compilation_time_ms st).

Definition add_dead_ops_removed (st : CompilationStats) (k : Z)
    : CompilationStats :=
  mkCompilationStats (original_ops st) (optimized_ops st) (ops_fused st)
    (constants_folded st) (dead_ops_removed st + k) (compilation_time_ms st).

Definition add_ops_fused (st : CompilationStats) (k : Z) : CompilationStats :=
  mkCompilationStats (original_ops st) (optimized_ops st) (ops_fused st + k)
    (constants_folded st) (dead_ops_removed st) (compilation_time_ms st).

(** The variables live across the sweep of [_constant_folding]. *)
Record cf_state : Type := mkCfState {
  constant_tensors : gset Z;
  nodes_to_remove : list nat;
  cf_stats : CompilationStats
}.

(** [all(inp_id in constant_tensors for inp_id in node.inputs)] *)
Definition all_inputs_constant (constant_tensors : gset Z) (node : GraphNode)
    : bool :=
  forallb (fun inp_id => bool_decide (inp_id ∈ constant_tensors)) (inputs node).

(** [for out_id in node.outputs: constant_tensors.add(out_id)] *)
Definition mark_outputs (constant_tensors : gset Z) (node : GraphNode)
    : gset Z :=
  foldl (fun s out_id => s ∪ {[ out_id ]}) constant_tensors (outputs node).

(** One iteration of the [for i, node in enumerate(graph.nodes)] loop. *)
Definition cf_body (st : cf_state) (entry : nat * GraphNode) : cf_state :=
  let '(i, node) := entry in
  if all_inputs_constant (constant_tensors st) node
     && bool_decide (op_type node ∈ [ADD; MUL])
  then mkCfState (mark_outputs (constant_tensors st) node)
                 (nodes_to_remove st ++ [i])
                 (add_constants_folded (cf_stats st) 1)
  else st.

(** [for idx in reversed(nodes_to_remove): graph.nodes.pop(idx)] *)
Definition pop_indices (ns : list GraphNode) (idxs : list nat)
    : list GraphNode :=
  foldl (fun l idx => delete idx l) ns (reverse idxs).

Definition _constant_folding (self : ModelCompiler) (graph : ComputationalGraph)
    : ModelCompiler * ComputationalGraph :=
  let st := foldl cf_body (mkCfState ∅ [] (stats self)) (enumerate (nodes graph)) in
  (with_stats self (cf_stats st),
   set_nodes graph (pop_indices (nodes graph) (nodes_to_remove st))).

(** ** Dead code elimination *)

(** The inner [for inp_id in node.inputs] loop: mark and enqueue every
    input that is not yet reachable. *)
Definition dce_mark (st : gset Z * list Z) (inp_id : Z) : gset Z * list Z :=
  let '(reachable, worklist) := st in
  if bool_decide (inp_id ∉ reachable)
  then (reachable ∪ {[ inp_id ]}, worklist ++ [inp_id])
  else (reachable, worklist).

(** The [for node in graph.nodes] loop for one popped [tensor_id]. *)
Definition dce_visit (ns : list GraphNode) (tensor_id : Z)
    (st : gset Z * list Z) : gset Z * list Z :=
  foldl (fun st node =>
           if bool_decide (tensor_id ∈ outputs node)
           then foldl dce_mark st (inputs node)
           else st)
        st ns.

(** The [while worklist:] loop, bounded by [fuel] iterations. *)
Fixpoint dce_loop (fuel : nat) (ns : list GraphNode)
    (reachable : gset Z) (worklist : list Z) : gset Z * list Z :=
  match fuel with
  | O => (reachable, worklist)
  | S fuel' =>
      match list_pop worklist with
      | None => (reachable, worklist)
      | Some (worklist', tensor_id) =>
          let '(reachable', worklist'') :=
            dce_visit ns tensor_id (reachable, worklist') in
          dce_loop fuel' ns reachable' worklist''
      end
  end.

(** All tensor ids read by some node, with repetitions. *)
Definition all_inputs (ns : list GraphNode) : list Z :=
  concat (map inputs ns).

(** Every iteration pops one id, and an id is pushed only when it is read by
    a node and was not reachable before: this many iterations are enough
    (see [dce_loop_terminates]). *)
Definition dce_fuel (graph : ComputationalGraph) : nat :=
  length (output_ids graph) + length (all_inputs (nodes graph)).

(** The set [reachable] when the [while] loop has ended. *)
Definition dce_reachable (graph : ComputationalGraph) : gset Z :=
  fst (dce_loop (dce_fuel graph) (nodes graph)
         (list_to_set (output_ids graph)) (output_ids graph)).

(** [any(out_id in reachable for out_id in node.outputs)] *)
Definition any_output_in (reachable : gset Z) (node : GraphNode) : bool :=
  existsb (fun out_id => bool_decide (out_id ∈ reachable)) (outputs node).

Definition _dead_code_elimination (self : ModelCompiler)
    (graph : ComputationalGraph) : ModelCompiler * ComputationalGraph :=
  let reachable := dce_reachable graph in
  let original_count := len (nodes graph) in
  let kept := List.filter (any_output_in reachable) (nodes graph) in
  let removed := original_count - len kept in
  (with_stats self (add_dead_ops_removed (stats self) removed),
   set_nodes graph kept).

(** ** Operator fusion *)

(** [_can_fuse] and the node builders below do not read [self]. *)
Definition _can_fuse (node1 node2 : GraphNode) : bool :=
  bool_decide (len (outputs node1) = 1)
  && bool_decide (len (inputs node2) = 1)
  && bool_decide (outputs node1 !! 0%nat = inputs node2 !! 0%nat).

Definition _can_fuse_triple (node1 node2 node3 : GraphNode) : bool :=
  _can_fuse node1 node2 && _can_fuse node2 node3.

Definition _fuse_matmul_activation (matmul activation : GraphNode)
    (fused_type : OpType) : GraphNode :=
  GraphNode_new (id matmul) fused_type
    ("fused_" +:+ name matmul +:+ "_" +:+ name activation)
    (inputs matmul) (outputs activation) (attributes matmul).

(** [{**a, **b}]: the keys of both, [b] winning on a clash; stdpp's union of
    maps prefers its left argument. *)
Definition dict_merge (a b : gmap string PyVal) : gmap string PyVal := b ∪ a.

Definition _fuse_layernorm_attention (layernorm attention : GraphNode)
    : GraphNode :=
  GraphNode_new (id layernorm) FUSED_LAYERNORM_ATTENTION
    ("fused_ln_attn_" +:+ pretty (id layernorm))
    (inputs layernorm) (outputs attention)
    (dict_merge (attributes layernorm) (attributes attention)).

Definition _fuse_conv_bn_relu (conv bn relu : GraphNode) : GraphNode :=
  GraphNode_new (id conv) FUSED_CONV_BATCHNORM_RELU
    ("fused_conv_bn_relu_" +:+ pretty (id conv))
    (inputs conv) (outputs relu)
    (dict_merge (attributes conv) (attributes bn)).

(** Each pattern returns [Some (nodes', k)] when it rewrites the list and
    leaves the iteration through [continue] ([k] is added to [ops_fused]),
    and [None] when control falls through to the next pattern. *)

(** Pattern 1: MatMul + ReLU/GELU. *)
Definition fusion_pattern1 (i : nat) (ns : list GraphNode)
    (node1 node2 : GraphNode) : option (list GraphNode * Z) :=
  if bool_decide (op_type node1 = MATMUL) then
    if bool_decide (op_type node2 = RELU) then
      if _can_fuse node1 node2 then
        Some (delete (i + 1)%nat
                (<[i := _fuse_matmul_activation node1 node2 FUSED_MATMUL_RELU]> ns), 1)
      else None
    else if bool_decide (op_type node2 = GELU) then
      if _can_fuse node1 node2 then
        Some (delete (i + 1)%nat
                (<[i := _fuse_matmul_activation node1 node2 FUSED_MATMUL_GELU]> ns), 1)
      else None
    else None
  else None.

(** Pattern 2: LayerNorm + Attention. *)
Definition fusion_pattern2 (i : nat) (ns : list GraphNode)
    (node1 node2 : GraphNode) : option (list GraphNode * Z) :=
  if bool_decide (op_type node1 = LAYERNORM)
     && bool_decide (op_type node2 ∈ [ATTENTION; MULTI_HEAD_ATTENTION]) then
    if _can_fuse node1 node2 then
      Some (delete (i + 1)%nat
              (<[i := _fuse_layernorm_attention node1 node2]> ns), 1)
    else None
  else None.

(** Pattern 3: Conv2D + BatchNorm + ReLU. *)
Definition fusion_pattern3 (i : nat) (ns : list GraphNode)
    (node1 node2 : GraphNode) : option (list GraphNode * Z) :=
  if bool_decide (Z.of_nat i < len ns - 2) then
    match ns !! (i + 2)%nat with
    | Some node3 =>
        if bool_decide (op_type node1 = CONV2D)
           && bool_decide (op_type node2 = BATCHNORM)
           && bool_decide (op_type node3 = RELU) then
          if _can_fuse_triple node1 node2 node3 then
            Some (delete (i + 1)%nat
                    (delete (i + 2)%nat
                       (<[i := _fuse_conv_bn_relu node1 node2 node3]> ns)), 2)
          else None
        else None
    | None => None
    end
  else None.

(** The three patterns in source order, for the nodes at [i] and [i + 1]. *)
Definition fusion_try (i : nat) (ns : list GraphNode)
    : option (list GraphNode * Z) :=
  match ns !! i, ns !! (i + 1)%nat with
  | Some node1, Some node2 =>
      match fusion_pattern1 i ns node1 node2 with
      | Some r => Some r
      | None =>
          match fusion_pattern2 i ns node1 node2 with
          | Some r => Some r
          | None => fusion_pattern3 i ns node1 node2
          end
      end
  | _, _ => None
  end.

(** The [while i < len(graph.nodes) - 1] loop, bounded by [fuel]
    iterations.  The result is the node list and the number added to
    [ops_fused]. *)
Fixpoint fusion_loop (fuel : nat) (i : nat) (ns : list GraphNode) (fused : Z)
    : list GraphNode * Z :=
  match fuel with
  | O => (ns, fused)
  | S fuel' =>
      if bool_decide (Z.of_nat i < len ns - 1) then
        match fusion_try i ns with
        | Some (ns', k) => fusion_loop fuel' i ns' (fused + k)
        | None => fusion_loop fuel' (i + 1)%nat ns fused
        end
      else (ns, fused)
  end.

(** Every iteration either shortens the list or advances [i], so
    [len(graph.nodes)] iterations are enough (see [fusion_loop_scan]). *)
Definition _operator_fusion (self : ModelCompiler) (graph : ComputationalGraph)
    : ModelCompiler * ComputationalGraph :=
  let '(ns, k) := fusion_loop (length (nodes graph)) 0 (nodes graph) 0 in
  (with_stats self (add_ops_fused (stats self) k), set_nodes graph ns).

Definition _layout_optimization (self : ModelCompiler)
    (graph : ComputationalGraph) : ModelCompiler * ComputationalGraph :=
  (self, graph).

Definition _kernel_fusion_experimental (self : ModelCompiler)
    (graph : ComputationalGraph) : ModelCompiler * ComputationalGraph :=
  (self, graph).

(** ** The driver *)

Definition set_original_ops (st : CompilationStats) (n : Z) : CompilationStats :=
  mkCompilationStats n (optimized_ops st) (ops_fused st)
    (constants_folded st) (dead_ops_removed st) (compilation_time_ms st).

Definition set_optimized_ops (st : CompilationStats) (n : Z) : CompilationStats :=
  mkCompilationStats (original_ops st) n (ops_fused st)
    (constants_folded st) (dead_ops_removed st) (compilation_time_ms st).

Definition set_compilation_time_ms (st : CompilationStats) (t : float)
    : CompilationStats :=
  mkCompilationStats (original_ops st) (optimized_ops st) (ops_fused st)
    (constants_folded st) (dead_ops_removed st) t.

(** The passes run at levels 1, 2 and 3. *)
Definition passes_level1 (st : ModelCompiler * ComputationalGraph)
    : ModelCompiler * ComputationalGraph :=
  let '(self, graph) := st in
  let '(self, graph) := _constant_folding self graph in
  _dead_code_elimination self graph.

Definition passes_level2 (st : ModelCompiler * ComputationalGraph)
    : ModelCompiler * ComputationalGraph :=
  let '(self, graph) := st in
  let '(self, graph) := _operator_fusion self graph in
  _layout_optimization self graph.

Definition passes_level3 (st : ModelCompiler * ComputationalGraph)
    : ModelCompiler * ComputationalGraph :=
  let '(self, graph) := st in
  _kernel_fusion_experimental self graph.

(** [compile]; [start_time] and [end_time] are the two readings of
    [time.perf_counter()]. *)
Definition compile (start_time end_time : float) (self : ModelCompiler)
    (graph : ComputationalGraph) : ModelCompiler * ComputationalGraph :=
  let self := with_stats self (set_original_ops (stats self) (len (nodes graph))) in
  let st := (self, graph) in
  let st := if bool_decide (optimization_level self >= 1) then passes_level1 st else st in
  let st := if bool_decide (optimization_level self >= 2) then passes_level2 st else st in
  let st := if bool_decide (optimization_level self >= 3) then passes_level3 st else st in
  let '(self, graph) := st in
  let self := with_stats self (set_optimized_ops (stats self) (len (nodes graph))) in
  let self := with_stats self
    (set_compilation_time_ms (stats self) ((end_time - start_time) * 1000)%float) in
  (self, set_optimized graph true).

(** ** Profiling *)

(** [needle in haystack] on strings. *)
Fixpoint str_contains (needle haystack : string) : bool :=
  String.prefix needle haystack
  || match haystack with
     | EmptyString => false
     | String _ rest => str_contains needle rest
     end.

(** A Python integer used as a float operand (exact below 2^53). *)
Definition float_of_int (z : Z) : float := PrimFloat.of_uint63 (Uint63.of_Z z).

(** [sum(times)]: the additions from left to right, starting at 0. *)
Definition py_sum (times : list float) : float :=
  foldl PrimFloat.add 0%float times.

Definition set_execution_time_ms (node : GraphNode) (t : float) : GraphNode :=
  mkGraphNode (id node) (op_type node) (name node) (inputs node)
    (outputs node) (attributes node) t (memory_usage_mb node).

(** The value assigned to [node.execution_time_ms]. *)
Definition simulated_time (node : GraphNode) : float :=
  if bool_decide (op_type node ∈ [MATMUL; CONV2D]) then 5%float
  else if str_contains "FUSED" (op_name (op_type node)) then 3.5%float
  else 0.5%float.

(** The variables live across the [for node in graph.nodes] loop of
    [profile_graph]; [pf_nodes] are the nodes already visited, as the loop
    has left them. *)
Record profile_state : Type := mkProfileState {
  pf_nodes : list GraphNode;
  pf_total_time : float;
  pf_op_times : gmap string (list float)
}.

Definition profile_body (st : profile_state) (node : GraphNode) : profile_state :=
  let node := set_execution_time_ms node (simulated_time node) in
  let op_name := op_name (op_type node) in
  let op_times :=
    if bool_decide (pf_op_times st !! op_name = None)
    then <[op_name := []]> (pf_op_times st)
    else pf_op_times st in
  let op_times :=
    alter (fun times => times ++ [execution_time_ms node]) op_name op_times in
  mkProfileState (pf_nodes st ++ [node])
                 (pf_total_time st + execution_time_ms node)%float
                 op_times.

Record OpStats : Type := mkOpStats {
  count : Z;
  total_time_ms : float;
  avg_time_ms : float;
  percentage : float
}.

Record ProfileReport : Type := mkProfileReport {
  total_execution_time_ms : float;
  total_memory_mb : float;
  num_operations : Z;
  op_breakdown : gmap string OpStats
}.

(** One entry of [op_stats]. *)
Definition op_stats_of (total_time : float) (times : list float) : OpStats :=
  mkOpStats (len times) (py_sum times)
    (py_sum times / float_of_int (len times))%float
    (if PrimFloat.ltb 0%float total_time
     then (py_sum times / total_time * 100)%float
     else 0%float).

(** [profile_graph] returns the report; the graph it has written to is
    returned with it. *)
Definition profile_graph (self : ModelCompiler) (graph : ComputationalGraph)
    : ComputationalGraph * ProfileReport :=
  let total_memory := 0%float in
  let st := foldl profile_body (mkProfileState [] 0%float ∅) (nodes graph) in
  let op_stats := op_stats_of (pf_total_time st) <$> pf_op_times st in
  let graph := set_nodes graph (pf_nodes st) in
  (graph,
   mkProfileReport (pf_total_time st) total_memory (len (nodes graph)) op_stats).

(** ** Recursive forms of the loops

    The sweeps above work on indices into a list that changes under them.
    The functions below describe their results by recursion on the node
    list; the refinement lemmas ([constant_folding_scan],
    [fusion_loop_scan]) show that the loops compute them. *)

(** The test of the folding sweep, for a given set of constant tensors. *)
Definition foldable (consts : gset Z) (node : GraphNode) : bool :=
  all_inputs_constant consts node && bool_decide (op_type node ∈ [ADD; MUL]).

(** Nodes that survive the sweep started with [consts]. *)
Fixpoint cf_scan (consts : gset Z) (ns : list GraphNode) : list GraphNode :=
  match ns with
  | [] => []
  | n :: ns' =>
      if foldable consts n then cf_scan (mark_outputs consts n) ns'
      else n :: cf_scan consts ns'
  end.

(** The constant set at the end of the sweep. *)
Fixpoint cf_consts (consts : gset Z) (ns : list GraphNode) : gset Z :=
  match ns with
  | [] => consts
  | n :: ns' =>
      if foldable consts n then cf_consts (mark_outputs consts n) ns'
      else cf_consts consts ns'
  end.

(** Indices recorded in [nodes_to_remove], the first node having index [k]. *)
Fixpoint cf_indices (consts : gset Z) (k : nat) (ns : list GraphNode) : list nat :=
  match ns with
  | [] => []
  | n :: ns' =>
      if foldable consts n then k :: cf_indices (mark_outputs consts n) (S k) ns'
      else cf_indices consts (S k) ns'
  end.

(** The node built by pattern 1 for two adjacent nodes, if it applies. *)
Definition pair_pattern1 (node1 node2 : GraphNode) : option GraphNode :=
  if bool_decide (op_type node1 = MATMUL) then
    if bool_decide (op_type node2 = RELU) then
      if _can_fuse node1 node2
      then Some (_fuse_matmul_activation node1 node2 FUSED_MATMUL_RELU)
      else None
    else if bool_decide (op_type node2 = GELU) then
      if _can_fuse node1 node2
      then Some (_fuse_matmul_activation node1 node2 FUSED_MATMUL_GELU)
      else None
    else None
  else None.

(** The node built by pattern 2. *)
Definition pair_pattern2 (node1 node2 : GraphNode) : option GraphNode :=
  if bool_decide (op_type node1 = LAYERNORM)
     && bool_decide (op_type node2 ∈ [ATTENTION; MULTI_HEAD_ATTENTION]) then
    if _can_fuse node1 node2
    then Some (_fuse_layernorm_attention node1 node2)
    else None
  else None.

(** Patterns 1 and 2 in source order. *)
Definition fuse_pair (node1 node2 : GraphNode) : option GraphNode :=
  match pair_pattern1 node1 node2 with
  | Some f => Some f
  | None => pair_pattern2 node1 node2
  end.

(** The node built by pattern 3 for three adjacent nodes. *)
Definition fuse_triple (node1 node2 node3 : GraphNode) : option GraphNode :=
  if bool_decide (op_type node1 = CONV2D)
     && bool_decide (op_type node2 = BATCHNORM)
     && bool_decide (op_type node3 = RELU) then
    if _can_fuse_triple node1 node2 node3
    then Some (_fuse_conv_bn_relu node1 node2 node3)
    else None
  else None.

(** The node list left by the fusion loop. *)
Fixpoint fuse_scan (ns : list GraphNode) : list GraphNode :=
  match ns with
  | [] => []
  | node1 :: tl =>
      match tl with
      | [] => [node1]
      | node2 :: rest =>
          match fuse_pair node1 node2 with
          | Some f => f :: fuse_scan rest
          | None =>
              match rest with
              | [] => node1 :: fuse_scan tl
              | node3 :: rest' =>
                  match fuse_triple node1 node2 node3 with
                  | Some f => f :: fuse_scan rest'
                  | None => node1 :: fuse_scan tl
                  end
              end
          end
      end
  end.

(** The amount the fusion loop adds to [ops_fused]. *)
Fixpoint fuse_count (ns : list GraphNode) : Z :=
  match ns with
  | [] => 0
  | node1 :: tl =>
      match tl with
      | [] => 0
      | node2 :: rest =>
          match fuse_pair node1 node2 with
          | Some f => 1 + fuse_count rest
          | None =>
              match rest with
              | [] => fuse_count tl
              | node3 :: rest' =>
                  match fuse_triple node1 node2 node3 with
                  | Some f => 2 + fuse_count rest'
                  | None => fuse_count tl
                  end
              end
          end
      end
  end.

(** Kinds that open a pattern, and kinds that can follow inside one. *)
Definition is_producer_kind (op : OpType) : bool :=
  bool_decide (op ∈ [MATMUL; LAYERNORM; CONV2D]).

Definition is_consumer_kind (op : OpType) : bool :=
  bool_decide (op ∈ [RELU; GELU; ATTENTION; MULTI_HEAD_ATTENTION; BATCHNORM]).

(** [f] replaces a chain that starts at [first] and ends at [last]. *)
Definition built_from (first last : GraphNode) (kind : OpType)
    (attrs : gmap string PyVal) (f : GraphNode) : Prop :=
  id f = id first
  /\ op_type f = kind
  /\ inputs f = inputs first
  /\ outputs f = outputs last
  /\ attributes f = attrs.

(** ** Liveness *)

(** Backward reachability from the declared outputs: an output is live,
    and so is every input of a node that produces a live tensor. *)
Inductive Live (ns : list GraphNode) (outs : list Z) : Z -> Prop :=
  | Live_output t : t ∈ outs -> Live ns outs t
  | Live_input n t i :
      n ∈ ns -> t ∈ outputs n -> Live ns outs t -> i ∈ inputs n ->
      Live ns outs i.

(** A node some output of which is live. *)
Definition produces_live (ns : list GraphNode) (outs : list Z) (n : GraphNode)
    : Prop :=
  exists t, t ∈ outputs n /\ Live ns outs t.

(** Every producer of [t] has all its inputs in [r]. *)
Definition closed_at (ns : list GraphNode) (r : gset Z) (t : Z) : Prop :=
  forall n i, n ∈ ns -> t ∈ outputs n -> i ∈ inputs n -> i ∈ r.

(** The invariant of the [while worklist:] loop: the declared outputs are
    reachable, reachable ids are live, the worklist holds reachable ids, and
    a reachable id that is no longer on the worklist has been visited. *)
Definition dce_inv (ns : list GraphNode) (outs : list Z)
    (r : gset Z) (w : list Z) : Prop :=
  (forall t, t ∈ outs -> t ∈ r)
  /\ (forall t, t ∈ r -> Live ns outs t)
  /\ (forall t, t ∈ w -> t ∈ r)
  /\ (forall t, t ∈ r -> t ∈ w \/ closed_at ns r t).

(** The ids read by the nodes, as a set; the termination measure of the
    worklist loop counts those not yet reachable. *)
Definition input_universe (ns : list GraphNode) : gset Z :=
  list_to_set (all_inputs ns).

Definition dce_measure (ns : list GraphNode) (st : gset Z * list Z) : nat :=
  (length (snd st) + size (input_universe ns ∖ fst st))%nat.

(** The nodes kept by [_dead_code_elimination]. *)
Definition dce_keep (graph : ComputationalGraph) : list GraphNode :=
  List.filter (any_output_in (dce_reachable graph)) (nodes graph).

(** ** The node lists between the passes *)

(** The node list after constant folding, after dead code elimination and
    after fusion, in a run of [compile] at a given level. *)
Definition folded_nodes (level : Z) (graph : ComputationalGraph) : list GraphNode :=
  if bool_decide (level >= 1) then cf_scan ∅ (nodes graph) else nodes graph.

Definition live_nodes (level : Z) (graph : ComputationalGraph) : list GraphNode :=
  if bool_decide (level >= 1)
  then dce_keep (set_nodes graph (folded_nodes level graph))
  else nodes graph.

Definition compiled_nodes (level : Z) (graph : ComputationalGraph) : list GraphNode :=
  if bool_decide (level >= 2) then fuse_scan (live_nodes level graph)
  else live_nodes level graph.

(** ** Invariants of the data model *)

(** All tensor ids written by some node, with repetitions. *)
Definition all_outputs (ns : list GraphNode) : list Z :=
  concat (map outputs ns).

(** Single static assignment: no tensor id is produced twice. *)
Definition ssa (ns : list GraphNode) : Prop := NoDup (all_outputs ns).

(** Acyclicity, witnessed by a rank on tensor ids that grows strictly from
    every input of a node to every output of that node. *)
Definition acyclic_by (rank : Z -> nat) (ns : list GraphNode) : Prop :=
  forall n i o, n ∈ ns -> i ∈ inputs n -> o ∈ outputs n -> (rank i < rank o)%nat.

Definition acyclic (ns : list GraphNode) : Prop :=
  exists rank, acyclic_by rank ns.

(** The state of a node list on which a further run of dead code
    elimination has nothing to remove: SSA, acyclic, and every node produces
    a live tensor. *)
Definition settled (rank : Z -> nat) (outs : list Z) (ns : list GraphNode)
    : Prop :=
  ssa ns
  /\ acyclic_by rank ns
  /\ forall n, n ∈ ns -> produces_live ns outs n.

(** The largest rank in a list of tensor ids. *)
Definition max_rank (rank : Z -> nat) (ts : list Z) : nat :=
  foldr (fun t m => Nat.max (rank t) m) 0%nat ts.

(** Fan-out: the number of node inputs, over the whole graph, that
    reference tensor [t]. *)
Definition fan_out (ns : list GraphNode) (t : Z) : nat :=
  length (List.filter (fun i => bool_decide (i = t)) (all_inputs ns)).

(** ** The profiling loop, node by node *)

(** What the profiling loop does to one node, and the times it records
    for the nodes of one kind. *)
Definition stamp (node : GraphNode) : GraphNode :=
  set_execution_time_ms node (simulated_time node).

Definition times_of_kind (op : OpType) (ns : list GraphNode) : list float :=
  map simulated_time (List.filter (fun n => bool_decide (op_type n = op)) ns).

Definition times_of_name (k : string) (ns : list GraphNode) : list float :=
  map simulated_time
      (List.filter (fun n => bool_decide (op_name (op_type n) = k)) ns).

(** ** Graphs used in examples *)

Definition create_sample_graph : ComputationalGraph :=
  ComputationalGraph_new
    [ GraphNode_new 0 MATMUL "fc1" [0; 1] [2] ∅;
      GraphNode_new 1 RELU "relu1" [2] [3] ∅;
      GraphNode_new 2 LAYERNORM "ln1" [3] [4] ∅;
      GraphNode_new 3 MULTI_HEAD_ATTENTION "attn1" [4] [5] {[ "num_heads" := PyInt 8 ]};
      GraphNode_new 4 MATMUL "fc2" [5; 6] [7] ∅;
      GraphNode_new 5 GELU "gelu1" [7] [8] ∅ ]
    (<[0 := mkTensorShape [1; 512] FP16]>
       (<[1 := mkTensorShape [512; 512] FP16]>
          (<[2 := mkTensorShape [1; 512] FP16]> ∅)))
    [0] [8].

(** Scenario 1: [MatMul(0,1) -> 2] and [ReLU(2) -> 3], declared output 3. *)
Definition scenario1_graph : ComputationalGraph :=
  ComputationalGraph_new
    [ GraphNode_new 0 MATMUL "fc" [0; 1] [2] ∅;
      GraphNode_new 1 RELU "relu" [2] [3] ∅ ]
    ∅ [0; 1] [3].

(** Scenario 2: the same chain, and a third node that also reads tensor 2;
    its output 4 is declared as well.  ([OpType] has no identity kind; the
    extra reader is a SiLU.) *)
Definition scenario2_graph : ComputationalGraph :=
  ComputationalGraph_new
    [ GraphNode_new 0 MATMUL "fc" [0; 1] [2] ∅;
      GraphNode_new 1 RELU "relu" [2] [3] ∅;
      GraphNode_new 2 SILU "side" [2] [4] ∅ ]
    ∅ [0; 1] [3; 4].

(** Scenario 3: [Add(lit1, lit2) -> x] and [MatMul(x, w) -> y], declared
    output [y]; tensors 10 and 11 are the literals, 12 is [x], 13 is [w] and
    14 is [y]. *)
Definition scenario3_add : GraphNode :=
  GraphNode_new 0 ADD "add" [10; 11] [12] ∅.

Definition scenario3_matmul : GraphNode :=
  GraphNode_new 1 MATMUL "fc" [12; 13] [14] ∅.

Definition scenario3_graph : ComputationalGraph :=
  ComputationalGraph_new [scenario3_add; scenario3_matmul] ∅ [13] [14].

(** An Add node without inputs whose output is a declared output. *)
Definition orphan_add : GraphNode := GraphNode_new 0 ADD "bias" [] [1] ∅.

Definition orphan_graph : ComputationalGraph :=
  ComputationalGraph_new [orphan_add] ∅ [] [1].

(** A MatMul followed by a GELU that carries an attribute. *)
Definition gelu_with_attribute : GraphNode :=
  GraphNode_new 1 GELU "gelu" [2] [3] {[ "approximate" := PyStr "tanh" ]}.

Definition attribute_graph : ComputationalGraph :=
  ComputationalGraph_new
    [ GraphNode_new 0 MATMUL "fc" [0; 1] [2] ∅; gelu_with_attribute ]
    ∅ [0; 1] [3].

(** A MatMul followed by a ReLU that reads tensor 2 twice. *)
Definition blocked_graph : ComputationalGraph :=
  ComputationalGraph_new
    [ GraphNode_new 0 MATMUL "fc" [0; 1] [2] ∅;
      GraphNode_new 1 RELU "relu" [2; 2] [3] ∅ ]
    ∅ [0; 1] [3].

(** A graph on which each pass has something to do: an input-less Add, a
    dead SiLU, and a MatMul + ReLU chain. *)
Definition busy_graph : ComputationalGraph :=
  ComputationalGraph_new
    [ GraphNode_new 0 ADD "bias" [] [9] ∅;
      GraphNode_new 1 SILU "unused" [5] [6] ∅;
      GraphNode_new 2 MATMUL "fc" [0; 1] [2] ∅;
      GraphNode_new 3 RELU "relu" [2] [3] ∅ ]
    ∅ [0; 1] [3].

(** A node with two outputs, of which only tensor 1 is declared. *)
Definition two_outputs : GraphNode := GraphNode_new 0 SOFTMAX "split" [0] [1; 2] ∅.

Definition two_outputs_graph : ComputationalGraph :=
  ComputationalGraph_new [two_outputs] ∅ [0] [1].

(** The same node and a second producer of tensor 1. *)
Definition second_producer : GraphNode := GraphNode_new 1 SILU "again" [0] [1] ∅.

Definition shared_output_graph : ComputationalGraph :=
  ComputationalGraph_new [two_outputs; second_producer] ∅ [0] [1].

(** A graph in which tensor 2 has two producers. *)
Definition two_producers_graph : ComputationalGraph :=
  ComputationalGraph_new
    [ GraphNode_new 0 SILU "other" [9] [2] ∅;
      GraphNode_new 1 MATMUL "fc" [0; 1] [2] ∅;
      GraphNode_new 2 RELU "relu" [2] [3] ∅ ]
    ∅ [0; 1; 9] [3].

(** ** Notions used by the further properties *)

(** A set of tensor ids that contains, with every tensor a node produces,
    all the inputs of that node. *)
Definition closed_under_producers (ns : list GraphNode) (S : gset Z) : Prop :=
  forall n t i, n ∈ ns -> t ∈ outputs n -> t ∈ S -> i ∈ inputs n -> i ∈ S.

(** The members of [OpType], in declaration order. *)
Definition all_op_types : list OpType :=
  [ MATMUL; CONV2D; RELU; GELU; SILU; SOFTMAX; LAYERNORM; BATCHNORM; RMSNORM;
    ATTENTION; MULTI_HEAD_ATTENTION; ADD; MUL; FUSED_MATMUL_RELU;
    FUSED_MATMUL_GELU; FUSED_CONV_BATCHNORM_RELU; FUSED_LAYERNORM_ATTENTION ].

Definition fused_kinds : list OpType :=
  [ FUSED_MATMUL_RELU; FUSED_MATMUL_GELU; FUSED_CONV_BATCHNORM_RELU;
    FUSED_LAYERNORM_ATTENTION ].

(** [report["op_breakdown"][op.name]["count"]], and 0 when the report has no
    entry for the kind. *)
Definition count_of (report : ProfileReport) (op : OpType) : Z :=
  match op_breakdown report !! op_name op with
  | Some s => count s
  | None => 0
  end.

(** The same graph with other declared outputs. *)
Definition with_output_ids (graph : ComputationalGraph) (outs : list Z)
    : ComputationalGraph :=
  mkComputationalGraph (nodes graph) (tensors graph) (input_ids graph) outs
                       (optimized graph).



Definition activations_graph : ComputationalGraph :=
  ComputationalGraph_new
    [ GraphNode_new 0 RELU "relu" [0] [1] ∅;
      GraphNode_new 1 SOFTMAX "softmax" [1] [2] ∅ ]
    ∅ [0] [2].

(** * Lemmas about the passes *)

(** The sample graph of [create_sample_graph] compiles to three fused nodes. *)
Example sample_compiles_to_three_nodes :
  map op_type (nodes (snd (compile 0 0 (ModelCompiler_new 2) create_sample_graph)))
  = [FUSED_MATMUL_RELU; FUSED_LAYERNORM_ATTENTION; FUSED_MATMUL_GELU].
Proof. vm_compute. reflexivity. Qed.

(** ** Constant folding: the sweep computes [cf_scan] *)

Lemma add_constants_folded_0 st : add_constants_folded st 0 = st.
Proof. destruct st; unfold add_constants_folded; simpl; f_equal; lia. Qed.

Lemma add_constants_folded_add st a b :
  add_constants_folded (add_constants_folded st a) b
  = add_constants_folded st (a + b).
Proof. unfold add_constants_folded; simpl; f_equal; lia. Qed.

Lemma cf_sweep_state consts acc st k ns :
  foldl cf_body (mkCfState consts acc st) (enumerate_from k ns)
  = mkCfState (cf_consts consts ns) (acc ++ cf_indices consts k ns)
      (add_constants_folded st (len (cf_indices consts k ns))).
Proof.
  revert consts acc st k.
  induction ns as [|n ns IH]; intros consts acc st k; simpl.
  - by rewrite app_nil_r, add_constants_folded_0.
  - fold (foldable consts n). destruct (foldable consts n); simpl.
    + rewrite IH, <- app_assoc, add_constants_folded_add. simpl.
      do 2 f_equal. unfold len. simpl length. lia.
    + by rewrite IH.
Qed.

Lemma pop_indices_scan consts pre ns :
  pop_indices (pre ++ ns) (cf_indices consts (length pre) ns)
  = pre ++ cf_scan consts ns.
Proof.
  revert consts pre.
  induction ns as [|n ns IH]; intros consts pre; simpl.
  - done.
  - destruct (foldable consts n).
    + unfold pop_indices. rewrite reverse_cons, foldl_app. simpl.
      fold (pop_indices (pre ++ n :: ns)
              (cf_indices (mark_outputs consts n) (S (length pre)) ns)).
      replace (S (length pre)) with (length (pre ++ [n]))
        by (rewrite length_app; simpl; lia).
      rewrite (cons_middle n pre ns), app_assoc, IH, <- app_assoc. simpl.
      apply delete_middle.
    + replace (S (length pre)) with (length (pre ++ [n]))
        by (rewrite length_app; simpl; lia).
      rewrite (cons_middle n pre ns), app_assoc, IH, <- app_assoc. done.
Qed.

(** [_constant_folding] keeps exactly the nodes of [cf_scan ∅], adds the
    number of removed nodes to [constants_folded], and touches nothing else. *)
Lemma constant_folding_scan self graph :
  _constant_folding self graph
  = (with_stats self
       (add_constants_folded (stats self)
          (len (nodes graph) - len (cf_scan ∅ (nodes graph)))),
     set_nodes graph (cf_scan ∅ (nodes graph))).
Proof.
  unfold _constant_folding, enumerate. rewrite cf_sweep_state. simpl.
  pose proof (pop_indices_scan ∅ [] (nodes graph)) as Hp. simpl in Hp.
  rewrite Hp. do 3 f_equal.
  clear Hp. generalize (∅ : gset Z) 0%nat.
  induction (nodes graph) as [|n ns IH]; intros consts k; simpl; [done|].
  destruct (foldable consts n); unfold len in *; simpl length.
  - specialize (IH (mark_outputs consts n) (S k)). lia.
  - specialize (IH consts (S k)). lia.
Qed.

(** ** Dead code elimination: the worklist loop computes [Live] *)

Lemma list_pop_None {A} (xs : list A) : list_pop xs = None -> xs = [].
Proof.
  destruct xs as [|x xs]; [done|]. simpl.
  destruct (list_pop xs) as [[? ?]|]; discriminate.
Qed.

Lemma list_pop_Some {A} (xs rest : list A) y :
  list_pop xs = Some (rest, y) -> xs = rest ++ [y].
Proof.
  revert rest y. induction xs as [|x xs IH]; intros rest y; simpl; [done|].
  destruct (list_pop xs) as [[r z]|] eqn:E.
  - intros [= <- <-]. simpl. f_equal. by apply IH.
  - intros [= <- <-]. by rewrite (list_pop_None _ E).
Qed.

Lemma size_list_to_set_le (l : list Z) :
  (size (list_to_set l : gset Z) <= length l)%nat.
Proof.
  induction l as [|x l IH].
  - rewrite list_to_set_nil, size_empty. done.
  - rewrite list_to_set_cons, size_union_alt, size_singleton. simpl length.
    pose proof (subseteq_size (list_to_set l ∖ {[x]}) (list_to_set l : gset Z)) as H.
    assert (list_to_set l ∖ {[x]} ⊆ (list_to_set l : gset Z)) by set_solver.
    specialize (H ltac:(done)). lia.
Qed.

Section dce_marks.
Context (U : gset Z).

Lemma dce_mark_fold l r w :
  let st := foldl dce_mark (r, w) l in
  fst st = r ∪ list_to_set l
  /\ (forall x, x ∈ (snd st) <-> x ∈ w \/ (x ∈ l /\ x ∉ r))
  /\ ((forall x, x ∈ l -> x ∈ U) ->
      (length (snd st) + size (U ∖ fst st) = length w + size (U ∖ r))%nat).
Proof.
  revert r w. induction l as [|i l IH]; intros r w; simpl.
  - split; [set_solver|]. split; [|done]. set_solver.
  - case_bool_decide as Hi; simpl.
    + destruct (IH (r ∪ {[i]}) (w ++ [i])) as (Hr & Hw & Hm).
      split; [rewrite Hr; set_solver|]. split.
      * intros x. rewrite Hw. rewrite elem_of_app, list_elem_of_singleton.
        rewrite elem_of_cons. destruct (decide (x = i)); set_solver.
      * intros HU. rewrite Hm by set_solver. rewrite length_app. simpl.
        assert (i ∈ U) by set_solver.
        assert (U ∖ r = {[i]} ∪ U ∖ (r ∪ {[i]})) as ->.
        { apply set_eq. intros x. destruct (decide (x = i)); set_solver. }
        assert (({[i]} : gset Z) ## U ∖ (r ∪ {[i]})) as Hd by set_solver.
        rewrite (size_union _ _ Hd), size_singleton. lia.
    + destruct (IH r w) as (Hr & Hw & Hm).
      split; [rewrite Hr; set_solver|]. split.
      * intros x. rewrite Hw, elem_of_cons. set_solver.
      * intros HU. apply Hm. set_solver.
Qed.

Lemma dce_visit_spec ns t r w :
  let st := dce_visit ns t (r, w) in
  (forall x, x ∈ (fst st) <->
     x ∈ r \/ exists n, n ∈ ns /\ t ∈ outputs n /\ x ∈ inputs n)
  /\ (forall x, x ∈ (snd st) <->
     x ∈ w \/ ((x ∉ r) /\ exists n, n ∈ ns /\ t ∈ outputs n /\ x ∈ inputs n))
  /\ ((forall n x, n ∈ ns -> x ∈ inputs n -> x ∈ U) ->
      (length (snd st) + size (U ∖ fst st) = length w + size (U ∖ r))%nat).
Proof.
  unfold dce_visit. revert r w.
  induction ns as [|n ns IH]; intros r w; simpl.
  - split; [|split]; [| |done]; intros x; split; try tauto.
    + intros [Hx | (n & Hn & _)]; [done | by apply elem_of_nil in Hn].
    + intros [Hx | (_ & n & Hn & _)]; [done | by apply elem_of_nil in Hn].
  - case_bool_decide as Ht.
    + pose proof (dce_mark_fold (inputs n) r w) as (Hr & Hw & Hm).
      destruct (foldl dce_mark (r, w) (inputs n)) as [r1 w1] eqn:E1.
      simpl in Hr, Hw, Hm.
      destruct (IH r1 w1) as (Hr' & Hw' & Hm').
      split; [|split].
      * intros x. rewrite Hr', Hr. rewrite elem_of_union, elem_of_list_to_set.
        split.
        -- intros [[?|?]|(m & ? & ? & ?)]; [by left| |].
           ++ right. exists n. set_solver.
           ++ right. exists m. set_solver.
        -- intros [?|(m & Hm1 & ? & ?)]; [by left; left|].
           apply elem_of_cons in Hm1 as [->|?]; [by left; right|].
           right. by exists m.
      * intros x. rewrite Hw', Hw, Hr. rewrite elem_of_union, elem_of_list_to_set.
        split.
        -- intros [[?|[? ?]]|(Hn & m & ? & ? & ?)]; [by left| |].
           ++ right. split; [done|]. exists n. set_solver.
           ++ right. split; [tauto|]. exists m. set_solver.
        -- intros [?|(Hx & m & Hm1 & ? & ?)]; [by left; left|].
           apply elem_of_cons in Hm1 as [->|?]; [by left; right|].
           destruct (decide (x ∈ inputs n)); [by left; right|].
           right. split; [tauto|]. by exists m.
      * intros HU. rewrite Hm' by set_solver. apply Hm. set_solver.
    + destruct (IH r w) as (Hr' & Hw' & Hm').
      split; [|split].
      * intros x. rewrite Hr'. split.
        -- intros [?|(m & ? & ? & ?)]; [by left|]. right. exists m. set_solver.
        -- intros [?|(m & Hm1 & ? & ?)]; [by left|].
           apply elem_of_cons in Hm1 as [->|?]; [done|]. right. by exists m.
      * intros x. rewrite Hw'. split.
        -- intros [?|(? & m & ? & ? & ?)]; [by left|].
           right. split; [done|]. exists m. set_solver.
        -- intros [?|(? & m & Hm1 & ? & ?)]; [by left|].
           apply elem_of_cons in Hm1 as [->|?]; [done|].
           right. split; [done|]. by exists m.
      * intros HU. apply Hm'. set_solver.
Qed.
End dce_marks.

Section dce_loop_correct.
Context (ns : list GraphNode) (outs : list Z).

Lemma dce_inv_done r :
  dce_inv ns outs r [] -> forall t, t ∈ r <-> Live ns outs t.
Proof.
  intros (Hout & Hlive & _ & Hclosed) t. split; [apply Hlive|].
  induction 1 as [t Ht | n t i Hn Ht _ IH Hi]; [by apply Hout|].
  destruct (Hclosed t IH) as [Hw | Hc]; [by apply elem_of_nil in Hw|].
  by apply (Hc n i).
Qed.

Lemma dce_inv_step r w t :
  dce_inv ns outs r (w ++ [t]) ->
  let st := dce_visit ns t (r, w) in dce_inv ns outs (fst st) (snd st).
Proof.
  intros (Hout & Hlive & Hwl & Hclosed).
  destruct (dce_visit_spec ∅ ns t r w) as (Hr & Hw & _).
  destruct (dce_visit ns t (r, w)) as [r1 w1]. simpl in *.
  assert (Live ns outs t) as Ht by (apply Hlive, Hwl; set_solver).
  repeat split.
  - intros x Hx. apply Hr. left. by apply Hout.
  - intros x [Hx | (n & Hn & Hn1 & Hn2)]%Hr; [by apply Hlive|].
    by apply (Live_input ns outs n t x).
  - intros x [Hx | (Hx & Hn)]%Hw; apply Hr; [|by right].
    left. apply Hwl. set_solver.
  - intros x Hx. destruct (decide (x ∈ r)) as [Hxr | Hxr].
    + destruct (Hclosed x Hxr) as [Hxw | Hc].
      * apply elem_of_app in Hxw as [Hxw | ->%list_elem_of_singleton].
        -- left. apply Hw. by left.
        -- right. intros n i Hn Hn1 Hn2. apply Hr. right. by exists n.
      * right. intros n i Hn Hn1 Hn2. apply Hr. left. by apply (Hc n i).
    + left. apply Hw. right. split; [done|].
      apply Hr in Hx as [?|?]; done.
Qed.

Lemma dce_loop_spec fuel r w :
  dce_inv ns outs r w ->
  (dce_measure ns (r, w) <= fuel)%nat ->
  let st := dce_loop fuel ns r w in
  snd st = [] /\ forall t, t ∈ (fst st) <-> Live ns outs t.
Proof.
  revert r w. induction fuel as [|fuel IH]; intros r w Hinv Hfuel; simpl.
  - unfold dce_measure in Hfuel. simpl in Hfuel.
    assert (w = []) as -> by (destruct w; [done | simpl in Hfuel; lia]).
    split; [done | by apply dce_inv_done].
  - destruct (list_pop w) as [[w0 t]|] eqn:Epop.
    + apply list_pop_Some in Epop as ->.
      pose proof (dce_inv_step r w0 t Hinv) as Hinv'.
      destruct (dce_visit_spec (input_universe ns) ns t r w0) as (_ & _ & Hm).
      destruct (dce_visit ns t (r, w0)) as [r1 w1]. simpl in *.
      apply IH; [done|].
      unfold dce_measure in *. simpl in *. rewrite length_app in Hfuel.
      simpl in Hfuel. rewrite Hm; [lia|].
      intros n x Hn Hx. unfold input_universe, all_inputs.
      apply elem_of_list_to_set, list_elem_of_In, in_concat.
      exists (inputs n). split; [|by apply list_elem_of_In].
      apply in_map, list_elem_of_In, Hn.
    + apply list_pop_None in Epop as ->.
      split; [done | by apply dce_inv_done].
Qed.
End dce_loop_correct.

(** The loop of [_dead_code_elimination] runs to completion within
    [dce_fuel] iterations: the worklist is empty when it stops. *)
Lemma dce_loop_terminates graph :
  snd (dce_loop (dce_fuel graph) (nodes graph)
         (list_to_set (output_ids graph)) (output_ids graph)) = [].
Proof.
  apply (dce_loop_spec (nodes graph) (output_ids graph)).
  - repeat split.
    + intros t Ht. by apply elem_of_list_to_set.
    + intros t Ht%elem_of_list_to_set. by apply Live_output.
    + intros t Ht. by apply elem_of_list_to_set.
    + intros t Ht%elem_of_list_to_set. by left.
  - unfold dce_measure, dce_fuel, input_universe. simpl.
    pose proof (size_list_to_set_le (all_inputs (nodes graph))).
    pose proof (subseteq_size
      ((list_to_set (all_inputs (nodes graph)) : gset Z)
         ∖ list_to_set (output_ids graph))
      (list_to_set (all_inputs (nodes graph)))) as Hs.
    specialize (Hs ltac:(set_solver)). lia.
Qed.

(** The set computed by the loop is exactly the set of live tensors. *)
Lemma dce_reachable_spec graph t :
  t ∈ dce_reachable graph <-> Live (nodes graph) (output_ids graph) t.
Proof.
  unfold dce_reachable.
  apply (dce_loop_spec (nodes graph) (output_ids graph)).
  - repeat split.
    + intros x Hx. by apply elem_of_list_to_set.
    + intros x Hx%elem_of_list_to_set. by apply Live_output.
    + intros x Hx. by apply elem_of_list_to_set.
    + intros x Hx%elem_of_list_to_set. by left.
  - unfold dce_measure, dce_fuel, input_universe. simpl.
    pose proof (size_list_to_set_le (all_inputs (nodes graph))).
    pose proof (subseteq_size
      ((list_to_set (all_inputs (nodes graph)) : gset Z)
         ∖ list_to_set (output_ids graph))
      (list_to_set (all_inputs (nodes graph)))) as Hs.
    specialize (Hs ltac:(set_solver)). lia.
Qed.

(** ** Operator fusion: the index loop computes [fuse_scan] *)

Lemma fuse_pair_producer n1 n2 f :
  fuse_pair n1 n2 = Some f -> is_producer_kind (op_type n1) = true.
Proof.
  unfold fuse_pair, pair_pattern1, pair_pattern2.
  repeat case_bool_decide; simpl; try discriminate; intros _;
    unfold is_producer_kind; apply bool_decide_eq_true; set_solver.
Qed.

Lemma fuse_pair_consumer n1 n2 f :
  fuse_pair n1 n2 = Some f -> is_consumer_kind (op_type n2) = true.
Proof.
  unfold fuse_pair, pair_pattern1, pair_pattern2.
  repeat case_bool_decide; simpl; try discriminate; intros _;
    unfold is_consumer_kind; apply bool_decide_eq_true; set_solver.
Qed.

Lemma fuse_triple_producer n1 n2 n3 f :
  fuse_triple n1 n2 n3 = Some f -> is_producer_kind (op_type n1) = true.
Proof.
  unfold fuse_triple.
  repeat case_bool_decide; simpl; try discriminate; intros _;
    unfold is_producer_kind; apply bool_decide_eq_true; set_solver.
Qed.

Lemma fuse_triple_consumers n1 n2 n3 f :
  fuse_triple n1 n2 n3 = Some f ->
  op_type n2 = BATCHNORM /\ op_type n3 = RELU.
Proof.
  unfold fuse_triple. repeat case_bool_decide; simpl; try discriminate; done.
Qed.

Lemma fuse_pair_kind n1 n2 f :
  fuse_pair n1 n2 = Some f ->
  is_producer_kind (op_type f) = false /\ is_consumer_kind (op_type f) = false.
Proof.
  unfold fuse_pair, pair_pattern1, pair_pattern2.
  repeat case_bool_decide; simpl; try discriminate;
    destruct (_can_fuse n1 n2); try discriminate; intros [= <-]; done.
Qed.

Lemma fuse_triple_kind n1 n2 n3 f :
  fuse_triple n1 n2 n3 = Some f ->
  is_producer_kind (op_type f) = false /\ is_consumer_kind (op_type f) = false.
Proof.
  unfold fuse_triple.
  repeat case_bool_decide; simpl; try discriminate;
    destruct (_can_fuse_triple n1 n2 n3); try discriminate; intros [= <-]; done.
Qed.

(** A node that opens no pattern is passed over by the scan. *)
Lemma fuse_pair_not_producer n1 n2 :
  is_producer_kind (op_type n1) = false -> fuse_pair n1 n2 = None.
Proof.
  intros H. destruct (fuse_pair n1 n2) eqn:E; [|done].
  apply fuse_pair_producer in E. congruence.
Qed.

Lemma fuse_triple_not_producer n1 n2 n3 :
  is_producer_kind (op_type n1) = false -> fuse_triple n1 n2 n3 = None.
Proof.
  intros H. destruct (fuse_triple n1 n2 n3) eqn:E; [|done].
  apply fuse_triple_producer in E. congruence.
Qed.

Lemma fuse_scan_skip n ns :
  is_producer_kind (op_type n) = false -> fuse_scan (n :: ns) = n :: fuse_scan ns.
Proof.
  intros H. destruct ns as [|n2 [|n3 rest]]; simpl; [done| |].
  - by rewrite fuse_pair_not_producer.
  - by rewrite fuse_pair_not_producer, fuse_triple_not_producer.
Qed.

Lemma fuse_count_skip n ns :
  is_producer_kind (op_type n) = false -> fuse_count (n :: ns) = fuse_count ns.
Proof.
  intros H. destruct ns as [|n2 [|n3 rest]]; simpl; [done| |].
  - by rewrite fuse_pair_not_producer.
  - by rewrite fuse_pair_not_producer, fuse_triple_not_producer.
Qed.

Lemma insert_middle {A} (pre : list A) x y tl :
  <[length pre := y]> (pre ++ x :: tl) = pre ++ y :: tl.
Proof. rewrite insert_app_r_alt by lia. by rewrite Nat.sub_diag. Qed.

Lemma replace_pair pre (n1 n2 f : GraphNode) rest :
  delete (length pre + 1)%nat (<[length pre := f]> (pre ++ n1 :: n2 :: rest))
  = pre ++ f :: rest.
Proof.
  rewrite insert_middle.
  rewrite (cons_middle f pre (n2 :: rest)), app_assoc.
  replace (length pre + 1)%nat with (length (pre ++ [f]))
    by (rewrite length_app; done).
  rewrite delete_middle, <- app_assoc. done.
Qed.

Lemma replace_triple pre (n1 n2 n3 f : GraphNode) rest :
  delete (length pre + 1)%nat
    (delete (length pre + 2)%nat
       (<[length pre := f]> (pre ++ n1 :: n2 :: n3 :: rest)))
  = pre ++ f :: rest.
Proof.
  rewrite insert_middle.
  replace (pre ++ f :: n2 :: n3 :: rest) with ((pre ++ [f; n2]) ++ n3 :: rest)
    by (rewrite <- app_assoc; done).
  replace (length pre + 2)%nat with (length (pre ++ [f; n2]))
    by (rewrite length_app; done).
  rewrite delete_middle, <- app_assoc. simpl.
  rewrite (cons_middle f pre (n2 :: rest)), app_assoc.
  replace (length pre + 1)%nat with (length (pre ++ [f]))
    by (rewrite length_app; done).
  rewrite delete_middle, <- app_assoc. done.
Qed.

Lemma fusion_pattern1_spec pre n1 n2 rest :
  fusion_pattern1 (length pre) (pre ++ n1 :: n2 :: rest) n1 n2
  = (fun f => (pre ++ f :: rest, 1)) <$> pair_pattern1 n1 n2.
Proof.
  unfold fusion_pattern1, pair_pattern1.
  repeat case_bool_decide; try done;
    destruct (_can_fuse n1 n2); simpl; try done; by rewrite replace_pair.
Qed.

Lemma fusion_pattern2_spec pre n1 n2 rest :
  fusion_pattern2 (length pre) (pre ++ n1 :: n2 :: rest) n1 n2
  = (fun f => (pre ++ f :: rest, 1)) <$> pair_pattern2 n1 n2.
Proof.
  unfold fusion_pattern2, pair_pattern2.
  destruct (_ && _); [|done].
  destruct (_can_fuse n1 n2); simpl; try done; by rewrite replace_pair.
Qed.

Lemma fusion_pattern3_spec pre n1 n2 rest :
  fusion_pattern3 (length pre) (pre ++ n1 :: n2 :: rest) n1 n2
  = match rest with
    | [] => None
    | n3 :: rest' => (fun f => (pre ++ f :: rest', 2)) <$> fuse_triple n1 n2 n3
    end.
Proof.
  unfold fusion_pattern3, fuse_triple, len.
  destruct rest as [|n3 rest'].
  - rewrite bool_decide_eq_false_2; [done|]. rewrite length_app. simpl. lia.
  - rewrite bool_decide_eq_true_2 by (rewrite length_app; simpl; lia).
    replace (pre ++ n1 :: n2 :: n3 :: rest')
      with ((pre ++ [n1; n2]) ++ n3 :: rest') by (rewrite <- app_assoc; done).
    replace (length pre + 2)%nat with (length (pre ++ [n1; n2]))
      by (rewrite length_app; done).
    rewrite list_lookup_middle by done.
    destruct (_ && _); [|done].
    destruct (_can_fuse_triple n1 n2 n3); simpl; [|done].
    rewrite <- app_assoc. simpl.
    replace (length (pre ++ [n1; n2])) with (length pre + 2)%nat
      by (rewrite length_app; done).
    by rewrite replace_triple.
Qed.

(** What one pass through the three patterns does at the front of the part
    of the list not yet scanned. *)
Lemma fusion_try_spec pre n1 n2 rest :
  fusion_try (length pre) (pre ++ n1 :: n2 :: rest)
  = match fuse_pair n1 n2 with
    | Some f => Some (pre ++ f :: rest, 1)
    | None =>
        match rest with
        | [] => None
        | n3 :: rest' =>
            (fun f => (pre ++ f :: rest', 2)) <$> fuse_triple n1 n2 n3
        end
    end.
Proof.
  unfold fusion_try.
  rewrite list_lookup_middle by done.
  replace (pre ++ n1 :: n2 :: rest) with ((pre ++ [n1]) ++ n2 :: rest) at 1
    by (rewrite <- app_assoc; done).
  rewrite list_lookup_middle by (rewrite length_app; done).
  rewrite fusion_pattern1_spec, fusion_pattern2_spec, fusion_pattern3_spec.
  unfold fuse_pair.
  destruct (pair_pattern1 n1 n2); simpl; [done|].
  destruct (pair_pattern2 n1 n2); simpl; done.
Qed.

Lemma fuse_scan_cons2 n1 n2 rest :
  fuse_scan (n1 :: n2 :: rest)
  = match fuse_pair n1 n2 with
    | Some f => f :: fuse_scan rest
    | None =>
        match rest with
        | [] => n1 :: fuse_scan (n2 :: rest)
        | n3 :: rest' =>
            match fuse_triple n1 n2 n3 with
            | Some f => f :: fuse_scan rest'
            | None => n1 :: fuse_scan (n2 :: rest)
            end
        end
    end.
Proof. reflexivity. Qed.

Lemma fuse_count_cons2 n1 n2 rest :
  fuse_count (n1 :: n2 :: rest)
  = match fuse_pair n1 n2 with
    | Some f => 1 + fuse_count rest
    | None =>
        match rest with
        | [] => fuse_count (n2 :: rest)
        | n3 :: rest' =>
            match fuse_triple n1 n2 n3 with
            | Some f => 2 + fuse_count rest'
            | None => fuse_count (n2 :: rest)
            end
        end
    end.
Proof. reflexivity. Qed.

(** The loop started at index [length pre], with [fuel] at least the length
    of the unscanned part, returns the scanned prefix followed by
    [fuse_scan] of the rest. *)
Lemma fusion_loop_scan fuel pre suf fused :
  (length suf <= fuel)%nat ->
  fusion_loop fuel (length pre) (pre ++ suf) fused
  = (pre ++ fuse_scan suf, fused + fuse_count suf).
Proof.
  revert pre suf fused.
  induction fuel as [|fuel IH]; intros pre suf fused Hfuel.
  - destruct suf; [|simpl in Hfuel; lia]. simpl. f_equal. lia.
  - destruct suf as [|n1 [|n2 rest]].
    + simpl. rewrite bool_decide_eq_false_2.
      * f_equal. lia.
      * unfold len. rewrite length_app. simpl. lia.
    + simpl. rewrite bool_decide_eq_false_2.
      * f_equal. lia.
      * unfold len. rewrite length_app. simpl. lia.
    + cbn [fusion_loop].
      rewrite bool_decide_eq_true_2
        by (unfold len; rewrite length_app; simpl; lia).
      rewrite fusion_try_spec. simpl in Hfuel.
      pose proof (IH (pre ++ [n1]) (n2 :: rest) fused ltac:(simpl; lia)) as IHskip.
      rewrite length_app, <- !app_assoc in IHskip.
      cbn [length app] in IHskip.
      rewrite fuse_scan_cons2, fuse_count_cons2.
      destruct (fuse_pair n1 n2) as [f|] eqn:Epair.
      * rewrite (IH pre (f :: rest)) by (simpl; lia).
        apply fuse_pair_kind in Epair as [Hk _].
        rewrite fuse_scan_skip, fuse_count_skip by done. f_equal. lia.
      * destruct rest as [|n3 rest']; [exact IHskip|].
        destruct (fuse_triple n1 n2 n3) as [f|] eqn:Etriple; cbn [fmap option_fmap option_map].
        -- rewrite (IH pre (f :: rest')) by (simpl in Hfuel |- *; lia).
           apply fuse_triple_kind in Etriple as [Hk _].
           rewrite fuse_scan_skip, fuse_count_skip by done. f_equal. lia.
        -- exact IHskip.
Qed.

(** [_operator_fusion] replaces the node list by its [fuse_scan] and adds
    [fuse_count] to [ops_fused]. *)
Lemma operator_fusion_scan self graph :
  _operator_fusion self graph
  = (with_stats self (add_ops_fused (stats self) (fuse_count (nodes graph))),
     set_nodes graph (fuse_scan (nodes graph))).
Proof.
  unfold _operator_fusion.
  pose proof (fusion_loop_scan (length (nodes graph)) [] (nodes graph) 0) as H.
  simpl in H. rewrite H by lia. done.
Qed.

(** ** The scan of a list split in two *)

Lemma fuse_pair_not_consumer n1 n2 :
  is_consumer_kind (op_type n2) = false -> fuse_pair n1 n2 = None.
Proof.
  intros H. destruct (fuse_pair n1 n2) eqn:E; [|done].
  apply fuse_pair_consumer in E. congruence.
Qed.

Lemma fuse_triple_mid_not_consumer n1 n2 n3 :
  is_consumer_kind (op_type n2) = false -> fuse_triple n1 n2 n3 = None.
Proof.
  intros H. destruct (fuse_triple n1 n2 n3) eqn:E; [|done].
  apply fuse_triple_consumers in E as [E _].
  unfold is_consumer_kind in H. rewrite E in H. discriminate.
Qed.

Lemma fuse_triple_last_not_consumer n1 n2 n3 :
  is_consumer_kind (op_type n3) = false -> fuse_triple n1 n2 n3 = None.
Proof.
  intros H. destruct (fuse_triple n1 n2 n3) eqn:E; [|done].
  apply fuse_triple_consumers in E as [_ E].
  unfold is_consumer_kind in H. rewrite E in H. discriminate.
Qed.

(** A node that cannot continue a pattern separates the list: what
    precedes it is scanned on its own. *)
Lemma fuse_scan_app pre suf :
  (forall x, head suf = Some x -> is_consumer_kind (op_type x) = false) ->
  fuse_scan (pre ++ suf) = fuse_scan pre ++ fuse_scan suf.
Proof.
  intros Hsuf. remember (length pre) as k eqn:Hk. revert pre Hk.
  induction k as [k IH] using lt_wf_ind. intros pre Hk.
  destruct pre as [|p1 [|p2 pre']].
  - done.
  - destruct suf as [|x suf']; [done|].
    specialize (Hsuf x eq_refl). cbn [app]. rewrite fuse_scan_cons2.
    rewrite fuse_pair_not_consumer by done.
    destruct suf' as [|y suf'']; [done|].
    by rewrite fuse_triple_mid_not_consumer.
  - cbn [app]. rewrite !fuse_scan_cons2.
    destruct (fuse_pair p1 p2) as [f|] eqn:Epair.
    + cbn [app]. f_equal. apply (IH (length pre')); [simpl in Hk; lia | done].
    + assert (fuse_scan ((p2 :: pre') ++ suf)
              = fuse_scan (p2 :: pre') ++ fuse_scan suf) as Htl.
      { apply (IH (length (p2 :: pre'))); [simpl in Hk |- *; lia | done]. }
      destruct pre' as [|p3 pre''].
      * cbn [app] in *. destruct suf as [|x suf']; [done|].
        rewrite fuse_triple_last_not_consumer by (by apply Hsuf).
        by rewrite Htl.
      * cbn [app] in *.
        destruct (fuse_triple p1 p2 p3) as [f|] eqn:Etriple.
        -- cbn [app]. f_equal.
           apply (IH (length pre'')); [simpl in Hk; lia | done].
        -- by rewrite Htl.
Qed.

Lemma fuse_scan_pair n1 n2 rest f :
  fuse_pair n1 n2 = Some f -> fuse_scan (n1 :: n2 :: rest) = f :: fuse_scan rest.
Proof. intros H. by rewrite fuse_scan_cons2, H. Qed.

Lemma fuse_scan_triple n1 n2 n3 rest f :
  fuse_pair n1 n2 = None -> fuse_triple n1 n2 n3 = Some f ->
  fuse_scan (n1 :: n2 :: n3 :: rest) = f :: fuse_scan rest.
Proof. intros H1 H2. by rewrite fuse_scan_cons2, H1, H2. Qed.

Lemma producer_not_consumer op :
  is_producer_kind op = true -> is_consumer_kind op = false.
Proof. by destruct op. Qed.

Lemma fuse_pair_blocked n1 n2 :
  _can_fuse n1 n2 = false -> fuse_pair n1 n2 = None.
Proof.
  intros H. unfold fuse_pair, pair_pattern1, pair_pattern2. rewrite H.
  repeat case_bool_decide; done.
Qed.

Lemma fuse_triple_blocked n1 n2 n3 :
  _can_fuse_triple n1 n2 n3 = false -> fuse_triple n1 n2 n3 = None.
Proof. intros H. unfold fuse_triple. rewrite H. by destruct (_ && _). Qed.

Lemma fuse_triple_not_conv n1 n2 n3 :
  op_type n1 <> CONV2D -> fuse_triple n1 n2 n3 = None.
Proof.
  intros H. unfold fuse_triple. by rewrite (bool_decide_eq_false_2 _ H).
Qed.

Lemma fuse_pair_conv n1 n2 : op_type n1 = CONV2D -> fuse_pair n1 n2 = None.
Proof.
  intros H. unfold fuse_pair, pair_pattern1, pair_pattern2. by rewrite H.
Qed.

(** A chain the patterns reject is left in place. *)
Lemma fuse_scan_keep_pair n1 n2 rest :
  fuse_pair n1 n2 = None ->
  (forall n3, fuse_triple n1 n2 n3 = None) ->
  is_producer_kind (op_type n2) = false ->
  fuse_scan (n1 :: n2 :: rest) = n1 :: n2 :: fuse_scan rest.
Proof.
  intros Hp Ht Hk. rewrite fuse_scan_cons2, Hp.
  destruct rest as [|n3 rest'].
  - by rewrite fuse_scan_skip.
  - by rewrite Ht, fuse_scan_skip.
Qed.

(** ** The driver in terms of the recursive forms *)

Lemma dead_code_elimination_keep self graph :
  _dead_code_elimination self graph
  = (with_stats self
       (add_dead_ops_removed (stats self)
          (len (nodes graph) - len (dce_keep graph))),
     set_nodes graph (dce_keep graph)).
Proof. reflexivity. Qed.

(** The compiler and the graph returned by [compile]. *)
Lemma compile_spec t0 t1 self graph :
  compile t0 t1 self graph
  = let level := optimization_level self in
    (mkModelCompiler level
       (mkCompilationStats
          (len (nodes graph))
          (len (compiled_nodes level graph))
          (ops_fused (stats self)
           + (if bool_decide (level >= 2)
              then fuse_count (live_nodes level graph) else 0))
          (constants_folded (stats self)
           + (len (nodes graph) - len (folded_nodes level graph)))
          (dead_ops_removed (stats self)
           + (len (folded_nodes level graph) - len (live_nodes level graph)))
          ((t1 - t0) * 1000)%float),
     mkComputationalGraph (compiled_nodes level graph) (tensors graph)
       (input_ids graph) (output_ids graph) true).
Proof.
  unfold compile, compiled_nodes, live_nodes, folded_nodes.
  unfold passes_level1, passes_level2, passes_level3.
  unfold _layout_optimization, _kernel_fusion_experimental.
  destruct self as [level st], st as [o1 o2 fu cf de tm].
  cbn [optimization_level stats with_stats set_original_ops fst snd].
  case_bool_decide as H1; case_bool_decide as H2; case_bool_decide as H3;
    try lia;
    rewrite ?constant_folding_scan, ?dead_code_elimination_keep;
    rewrite ?operator_fusion_scan;
    unfold with_stats, set_original_ops, set_nodes, set_optimized,
      add_ops_fused, add_constants_folded, add_dead_ops_removed,
      set_optimized_ops, set_compilation_time_ms; simpl;
    repeat f_equal; lia.
Qed.

(** ** Facts about the kept and the folded nodes *)

Lemma any_output_in_live graph n :
  any_output_in (dce_reachable graph) n = true
  <-> produces_live (nodes graph) (output_ids graph) n.
Proof.
  unfold any_output_in, produces_live. rewrite existsb_exists. split.
  - intros (t & Ht & Hr). exists t. split; [by apply list_elem_of_In|].
    apply bool_decide_eq_true in Hr. by apply dce_reachable_spec.
  - intros (t & Ht & Hl). exists t. split; [by apply list_elem_of_In|].
    apply bool_decide_eq_true. by apply dce_reachable_spec.
Qed.

Lemma elem_of_dce_keep graph n :
  n ∈ dce_keep graph
  <-> n ∈ nodes graph /\ produces_live (nodes graph) (output_ids graph) n.
Proof.
  unfold dce_keep. rewrite list_elem_of_In, filter_In, <- list_elem_of_In.
  by rewrite any_output_in_live.
Qed.

Lemma filter_all_true {A} (p : A -> bool) (l : list A) :
  (forall x, x ∈ l -> p x = true) -> List.filter p l = l.
Proof.
  induction l as [|x l IH]; intros H; simpl; [done|].
  rewrite (H x) by set_solver. f_equal. apply IH. set_solver.
Qed.

Lemma dce_keep_all graph :
  (forall n, n ∈ nodes graph ->
             produces_live (nodes graph) (output_ids graph) n) ->
  dce_keep graph = nodes graph.
Proof.
  intros H. apply filter_all_true. intros n Hn. by apply any_output_in_live, H.
Qed.

Lemma foldable_not_add_mul consts n :
  op_type n ∉ [ADD; MUL] -> foldable consts n = false.
Proof.
  intros H. unfold foldable. rewrite (bool_decide_eq_false_2 _ H).
  apply andb_false_r.
Qed.

Lemma foldable_no_inputs consts n :
  inputs n = [] -> op_type n ∈ [ADD; MUL] -> foldable consts n = true.
Proof.
  intros Hi Ho. unfold foldable, all_inputs_constant. rewrite Hi. simpl.
  by apply bool_decide_eq_true.
Qed.

Lemma foldable_empty n :
  foldable ∅ n = true <-> inputs n = [] /\ op_type n ∈ [ADD; MUL].
Proof.
  split; [|intros [? ?]; by apply foldable_no_inputs].
  unfold foldable, all_inputs_constant.
  intros [Hall Hop%bool_decide_eq_true]%andb_true_iff. split; [|done].
  destruct (inputs n) as [|i l]; [done|]. simpl in Hall.
  apply andb_true_iff in Hall as [Hi%bool_decide_eq_true _]. set_solver.
Qed.

(** With an empty constant set, a list without input-less Add/Multiply
    nodes passes through the sweep unchanged. *)
Lemma cf_scan_empty_id ns :
  (forall n, n ∈ ns -> foldable ∅ n = false) -> cf_scan ∅ ns = ns.
Proof.
  induction ns as [|n ns IH]; intros H; simpl; [done|].
  rewrite (H n) by set_solver. f_equal. apply IH. set_solver.
Qed.

(** The sweep only deletes nodes. *)
Lemma cf_scan_sublist consts ns : sublist (cf_scan consts ns) ns.
Proof.
  revert consts. induction ns as [|n ns IH]; intros consts; simpl; [done|].
  destruct (foldable consts n).
  - by apply sublist_cons.
  - by apply sublist_skip.
Qed.

(** An input-less Add/Multiply node never survives the sweep. *)
Lemma cf_scan_drops consts ns n :
  n ∈ cf_scan consts ns -> ~ (inputs n = [] /\ op_type n ∈ [ADD; MUL]).
Proof.
  revert consts. induction ns as [|m ns IH]; intros consts; simpl.
  - by intros ?%elem_of_nil.
  - destruct (foldable consts m) eqn:E; [by apply IH|].
    intros [->|Hn]%elem_of_cons; [|by apply (IH consts)].
    intros [Hi Ho]. by rewrite foldable_no_inputs in E.
Qed.

Lemma set_nodes_id graph : set_nodes graph (nodes graph) = graph.
Proof. by destruct graph. Qed.

(** ** Liveness and single assignment under deletion of nodes *)

Lemma Live_mono ns ns' outs t :
  (forall n, n ∈ ns -> n ∈ ns') -> Live ns outs t -> Live ns' outs t.
Proof.
  intros Hsub. induction 1 as [t Ht | n t i Hn Ht _ IH Hi].
  - by apply Live_output.
  - apply (Live_input _ _ n t i); auto.
Qed.

(** Deleting nodes that produce no live tensor does not change liveness. *)
Lemma Live_dce_keep graph t :
  Live (dce_keep graph) (output_ids graph) t
  <-> Live (nodes graph) (output_ids graph) t.
Proof.
  split.
  - apply Live_mono. intros n Hn. by apply elem_of_dce_keep in Hn as [? _].
  - induction 1 as [t Ht | n t i Hn Ht Hl IH Hi].
    + by apply Live_output.
    + apply (Live_input _ _ n t i); [|done..].
      apply elem_of_dce_keep. split; [done|]. by exists t.
Qed.

Lemma all_outputs_app l1 l2 :
  all_outputs (l1 ++ l2) = all_outputs l1 ++ all_outputs l2.
Proof. unfold all_outputs. by rewrite map_app, concat_app. Qed.

Lemma elem_of_all_outputs ns t :
  t ∈ all_outputs ns <-> exists n, n ∈ ns /\ t ∈ outputs n.
Proof.
  unfold all_outputs. rewrite list_elem_of_In, in_concat. split.
  - intros (l & Hl & Ht). apply in_map_iff in Hl as (n & <- & Hn).
    exists n. by rewrite !list_elem_of_In.
  - intros (n & Hn & Ht). exists (outputs n). split.
    + apply in_map. by apply list_elem_of_In.
    + by apply list_elem_of_In.
Qed.

Lemma all_outputs_sublist l1 l2 :
  sublist l1 l2 -> sublist (all_outputs l1) (all_outputs l2).
Proof.
  induction 1 as [|n l1 l2 _ IH|n l1 l2 _ IH]; unfold all_outputs in *; simpl.
  - done.
  - by apply sublist_app.
  - by apply sublist_inserts_l.
Qed.

Lemma ssa_sublist l1 l2 : sublist l1 l2 -> ssa l2 -> ssa l1.
Proof.
  unfold ssa. intros Hsub Hnd.
  eapply sublist_NoDup; [done | by apply all_outputs_sublist].
Qed.

Lemma filter_sublist {A} (p : A -> bool) (l : list A) :
  sublist (List.filter p l) l.
Proof.
  induction l as [|x l IH]; simpl; [done|].
  destruct (p x); [by apply sublist_skip | by apply sublist_cons].
Qed.

Lemma dce_keep_sublist graph : sublist (dce_keep graph) (nodes graph).
Proof. apply filter_sublist. Qed.

(** In an SSA list, a tensor written by one node is written by no other. *)
Lemma ssa_sole_producer l1 n l2 t :
  ssa (l1 ++ n :: l2) -> t ∈ outputs n ->
  forall m, m ∈ l1 ++ l2 -> t ∉ outputs m.
Proof.
  unfold ssa. rewrite all_outputs_app.
  change (all_outputs (n :: l2)) with (outputs n ++ all_outputs l2).
  intros (_ & Hl1 & (_ & Hl2 & _)%NoDup_app)%NoDup_app Ht m Hm Htm.
  apply elem_of_app in Hm as [Hm | Hm].
  - apply (Hl1 t); [apply elem_of_all_outputs; by exists m|].
    apply elem_of_app. by left.
  - apply (Hl2 t); [done|]. apply elem_of_all_outputs. by exists m.
Qed.

(** ** Profiling: the state of the loop *)

Lemma op_name_inj a b : op_name a = op_name b -> a = b.
Proof. destruct a, b; simpl; intros H; first [reflexivity | discriminate H]. Qed.

Lemma times_of_name_kind op ns :
  times_of_name (op_name op) ns = times_of_kind op ns.
Proof.
  unfold times_of_name, times_of_kind. f_equal.
  induction ns as [|n ns IH]; simpl; [done|].
  rewrite IH.
  destruct (decide (op_type n = op)) as [Heq | Hne].
  - by rewrite !bool_decide_eq_true_2 by (by rewrite ?Heq).
  - rewrite !bool_decide_eq_false_2; [done.. |].
    intros Hname. by apply Hne, op_name_inj.
Qed.

Lemma profile_body_times st n k :
  pf_op_times (profile_body st n) !! k
  = if decide (op_name (op_type n) = k)
    then Some (default [] (pf_op_times st !! k) ++ [simulated_time n])
    else pf_op_times st !! k.
Proof.
  unfold profile_body. simpl. case_decide as Hk.
  - subst k. rewrite lookup_alter_eq. case_bool_decide as Hnone.
    + by rewrite lookup_insert_eq, Hnone.
    + destruct (pf_op_times st !! op_name (op_type n)); [done|congruence].
  - rewrite lookup_alter_ne by done. case_bool_decide; [|done].
    by rewrite lookup_insert_ne.
Qed.

Lemma profile_fold ns st :
  let st' := foldl profile_body st ns in
  pf_nodes st' = pf_nodes st ++ map stamp ns
  /\ pf_total_time st'
     = foldl PrimFloat.add (pf_total_time st) (map simulated_time ns)
  /\ forall k,
       pf_op_times st' !! k
       = match pf_op_times st !! k with
         | Some l => Some (l ++ times_of_name k ns)
         | None =>
             match times_of_name k ns with
             | [] => None
             | t :: ts => Some (t :: ts)
             end
         end.
Proof.
  revert st. induction ns as [|n ns IH]; intros st; simpl.
  - split; [by rewrite app_nil_r|]. split; [done|]. intros k.
    unfold times_of_name. simpl.
    destruct (pf_op_times st !! k); [by rewrite app_nil_r | done].
  - destruct (IH (profile_body st n)) as (Hn & Ht & Hk).
    split; [|split].
    + rewrite Hn. simpl. by rewrite <- app_assoc.
    + rewrite Ht. done.
    + intros k. rewrite Hk, profile_body_times.
      unfold times_of_name. simpl. case_decide as Hkn.
      * rewrite bool_decide_eq_true_2 by done. simpl.
        destruct (pf_op_times st !! k); simpl; [by rewrite <- app_assoc | done].
      * rewrite bool_decide_eq_false_2 by done. done.
Qed.

(** ** One fusion step on a settled node list *)

Lemma max_rank_ge rank ts t : t ∈ ts -> (rank t <= max_rank rank ts)%nat.
Proof.
  induction ts as [|x ts IH]; simpl; [by intros ?%elem_of_nil|].
  intros [-> | Ht]%elem_of_cons; [lia|]. specialize (IH Ht). lia.
Qed.

Section fusion_step.
Context (rank : Z -> nat) (outs : list Z).
Context (pre rest : list GraphNode) (n1 n2 f : GraphNode) (c : Z).
Context (Hout1 : outputs n1 = [c]) (Hin2 : inputs n2 = [c]).
Context (Hinf : inputs f = inputs n1) (Houtf : outputs f = outputs n2).
Context (Hsettled : settled rank outs (pre ++ n1 :: n2 :: rest)).

Lemma step_other_not_c n :
  n ∈ pre ++ n2 :: rest -> c ∉ outputs n.
Proof.
  destruct Hsettled as (Hssa & _ & _). intros Hn.
  apply (ssa_sole_producer pre n1 (n2 :: rest) c Hssa); [|done].
  rewrite Hout1. set_solver.
Qed.

Lemma step_elem n :
  n ∈ pre ++ n1 :: n2 :: rest ->
  n = n1 \/ n = n2 \/ (n ∈ pre ++ rest).
Proof. set_solver. Qed.

(** Liveness survives the step for every tensor but the elided one. *)
Lemma step_live_bounded k t :
  (max_rank rank (all_outputs (pre ++ n1 :: n2 :: rest)) - rank t <= k)%nat ->
  Live (pre ++ n1 :: n2 :: rest) outs t ->
  t <> c ->
  Live (pre ++ f :: rest) outs t.
Proof.
  destruct Hsettled as (Hssa & Hacyc & Hlive).
  set (B := pre ++ n1 :: n2 :: rest) in *.
  revert t. induction k as [|k IH]; intros t Hk Ht Htc.
  - inversion Ht as [? Hto | n t' ? Hn Ht' Hl Hi]; subst.
    + by apply Live_output.
    + pose proof (Hacyc n t t' Hn Hi Ht') as Hlt.
      pose proof (max_rank_ge rank (all_outputs B) t') as Hle.
      specialize (Hle ltac:(apply elem_of_all_outputs; by exists n)). lia.
  - inversion Ht as [? Hto | n t' ? Hn Ht' Hl Hi]; subst.
    + by apply Live_output.
    + pose proof (Hacyc n t t' Hn Hi Ht') as Hlt.
      pose proof (max_rank_ge rank (all_outputs B) t') as Hle.
      specialize (Hle ltac:(apply elem_of_all_outputs; by exists n)).
      destruct (step_elem n Hn) as [-> | [-> | Hn']].
      * (* the producer of the elided tensor: go through the fused node *)
        rewrite Hout1 in Ht'. apply list_elem_of_singleton in Ht' as ->.
        destruct (Hlive n2) as (d & Hd & Hld); [set_solver|].
        assert (d <> c) as Hdc.
        { intros ->. apply (step_other_not_c n2); [set_solver | done]. }
        assert (rank c < rank d)%nat as Hcd.
        { apply (Hacyc n2); [set_solver | rewrite Hin2; set_solver | done]. }
        pose proof (max_rank_ge rank (all_outputs B) d) as Hled.
        specialize (Hled ltac:(apply elem_of_all_outputs; exists n2; set_solver)).
        apply (Live_input _ _ f d t); [set_solver | by rewrite Houtf | | by rewrite Hinf].
        apply IH; [lia | done | done].
      * rewrite Hin2 in Hi. by apply list_elem_of_singleton in Hi.
      * assert (t' <> c) as Htc'.
        { intros ->. apply (step_other_not_c n); [set_solver | done]. }
        apply (Live_input _ _ n t' t); [set_solver | done | | done].
        apply IH; [lia | done | done].
Qed.

Lemma step_live t :
  Live (pre ++ n1 :: n2 :: rest) outs t -> t <> c ->
  Live (pre ++ f :: rest) outs t.
Proof.
  intros Ht Htc. eapply step_live_bounded; [apply Nat.le_refl | done | done].
Qed.

Lemma step_settled : settled rank outs (pre ++ f :: rest).
Proof.
  pose proof Hsettled as (Hssa & Hacyc & Hlive). split; [|split].
  - unfold ssa in *. eapply sublist_NoDup; [exact Hssa|].
    rewrite !all_outputs_app. apply sublist_app; [done|].
    change (all_outputs (f :: rest)) with (outputs f ++ all_outputs rest).
    change (all_outputs (n1 :: n2 :: rest))
      with (outputs n1 ++ outputs n2 ++ all_outputs rest).
    rewrite Houtf. by apply sublist_inserts_l.
  - intros n i o Hn Hi Ho.
    apply elem_of_app in Hn as [Hn | [-> | Hn]%elem_of_cons].
    + apply (Hacyc n); [set_solver | done..].
    + rewrite Hinf in Hi. rewrite Houtf in Ho.
      assert (rank i < rank c)%nat.
      { apply (Hacyc n1); [set_solver | done | rewrite Hout1; set_solver]. }
      assert (rank c < rank o)%nat.
      { apply (Hacyc n2); [set_solver | rewrite Hin2; set_solver | done]. }
      lia.
    + apply (Hacyc n); [set_solver | done..].
  - intros n Hn.
    assert (forall m, m ∈ pre ++ n2 :: rest ->
              exists d, d ∈ outputs m /\ Live (pre ++ f :: rest) outs d) as Hm.
    { intros m Hm. destruct (Hlive m) as (d & Hd & Hld); [set_solver|].
      exists d. split; [done|]. apply step_live; [done|].
      intros ->. by apply (step_other_not_c m). }
    apply elem_of_app in Hn as [Hn | [-> | Hn]%elem_of_cons].
    + apply Hm. set_solver.
    + destruct (Hm n2) as (d & Hd & Hld); [set_solver|].
      exists d. by rewrite Houtf.
    + apply Hm. set_solver.
Qed.
End fusion_step.

(** ** The whole fusion scan on a settled node list *)

Lemma can_fuse_shape n1 n2 :
  _can_fuse n1 n2 = true -> exists c, outputs n1 = [c] /\ inputs n2 = [c].
Proof.
  unfold _can_fuse, len.
  intros [[H1%bool_decide_eq_true H2%bool_decide_eq_true]%andb_true_iff
            H3%bool_decide_eq_true]%andb_true_iff.
  destruct (outputs n1) as [|c [|? ?]]; simpl in H1; try lia.
  destruct (inputs n2) as [|c' [|? ?]]; simpl in H2; try lia.
  simpl in H3. injection H3 as <-. by exists c.
Qed.

Lemma fuse_pair_shape n1 n2 f :
  fuse_pair n1 n2 = Some f ->
  exists c, outputs n1 = [c] /\ inputs n2 = [c]
            /\ inputs f = inputs n1 /\ outputs f = outputs n2.
Proof.
  unfold fuse_pair, pair_pattern1, pair_pattern2. intros H.
  destruct (_can_fuse n1 n2) eqn:Hcan.
  - destruct (can_fuse_shape n1 n2 Hcan) as (c & ? & ?). exists c.
    repeat case_bool_decide; simpl in H; try discriminate;
      injection H as <-; done.
  - repeat case_bool_decide; simpl in H; discriminate.
Qed.

Lemma fuse_triple_shape n1 n2 n3 f :
  fuse_triple n1 n2 n3 = Some f ->
  exists c1 c2, outputs n1 = [c1] /\ inputs n2 = [c1]
                /\ outputs n2 = [c2] /\ inputs n3 = [c2]
                /\ inputs f = inputs n1 /\ outputs f = outputs n3.
Proof.
  unfold fuse_triple, _can_fuse_triple. intros H.
  destruct (_ && _ && _); [|discriminate].
  destruct (_can_fuse n1 n2) eqn:H12; [|discriminate].
  destruct (_can_fuse n2 n3) eqn:H23; [|discriminate].
  simpl in H. injection H as <-.
  destruct (can_fuse_shape n1 n2 H12) as (c1 & ? & ?).
  destruct (can_fuse_shape n2 n3 H23) as (c2 & ? & ?).
  by exists c1, c2.
Qed.

Lemma fuse_scan_settled rank outs suf :
  forall pre,
    settled rank outs (pre ++ suf) -> settled rank outs (pre ++ fuse_scan suf).
Proof.
  remember (length suf) as k eqn:Hk. revert suf Hk.
  induction k as [k IH] using lt_wf_ind. intros suf Hk pre Hs.
  destruct suf as [|n1 [|n2 rest]]; [done..|].
  assert (settled rank outs ((pre ++ [n1]) ++ fuse_scan (n2 :: rest))) as Hskip.
  { apply (IH (length (n2 :: rest))); [simpl in Hk |- *; lia | done |].
    by rewrite <- app_assoc. }
  rewrite <- app_assoc in Hskip. cbn [app] in Hskip.
  rewrite fuse_scan_cons2.
  destruct (fuse_pair n1 n2) as [f|] eqn:Epair.
  - destruct (fuse_pair_shape _ _ _ Epair) as (c & Ho & Hi & Hfi & Hfo).
    pose proof (step_settled rank outs pre rest n1 n2 f c Ho Hi Hfi Hfo Hs) as Hs'.
    rewrite (cons_middle f pre (fuse_scan rest)), app_assoc.
    apply (IH (length rest)); [simpl in Hk; lia | done |].
    by rewrite <- app_assoc.
  - destruct rest as [|n3 rest']; [done|].
    destruct (fuse_triple n1 n2 n3) as [f|] eqn:Etriple; [|done].
    destruct (fuse_triple_shape _ _ _ _ Etriple)
      as (c1 & c2 & Ho1 & Hi2 & Ho2 & Hi3 & Hfi & Hfo).
    set (g := mkGraphNode (id n1) (op_type n1) (name n1) (inputs n1)
                (outputs n2) (attributes n1) (execution_time_ms n1)
                (memory_usage_mb n1)).
    pose proof (step_settled rank outs pre (n3 :: rest') n1 n2 g c1
                  Ho1 Hi2 eq_refl eq_refl Hs) as Hs1.
    pose proof (step_settled rank outs pre rest' g n3 f c2
                  Ho2 Hi3 Hfi Hfo Hs1) as Hs2.
    rewrite (cons_middle f pre (fuse_scan rest')), app_assoc.
    apply (IH (length rest')); [simpl in Hk; lia | done |].
    by rewrite <- app_assoc.
Qed.

(** ** The fusion scan reaches a fixed point in one sweep *)

Lemma fuse_scan_head n ns :
  exists z zs,
    fuse_scan (n :: ns) = z :: zs
    /\ (z = n \/ is_consumer_kind (op_type z) = false).
Proof.
  destruct ns as [|n2 rest]; [by exists n, []; split; [|left]|].
  rewrite fuse_scan_cons2.
  destruct (fuse_pair n n2) as [f|] eqn:Epair.
  - exists f, (fuse_scan rest). split; [done|]. right.
    by apply fuse_pair_kind in Epair as [_ ?].
  - destruct rest as [|n3 rest'].
    + exists n, (fuse_scan [n2]). split; [done | by left].
    + destruct (fuse_triple n n2 n3) as [f|] eqn:Etriple.
      * exists f, (fuse_scan rest'). split; [done|]. right.
        by apply fuse_triple_kind in Etriple as [_ ?].
      * exists n, (fuse_scan (n2 :: n3 :: rest')). split; [done | by left].
Qed.

(** Re-scanning a node the scan has passed over, in front of a tail that
    is already stable, passes over it again. *)
Lemma fuse_scan_skip_stable n1 n2 rest :
  fuse_pair n1 n2 = None ->
  (forall n3 rest', rest = n3 :: rest' -> fuse_triple n1 n2 n3 = None) ->
  fuse_scan (fuse_scan (n2 :: rest)) = fuse_scan (n2 :: rest) ->
  fuse_scan (n1 :: fuse_scan (n2 :: rest)) = n1 :: fuse_scan (n2 :: rest).
Proof.
  intros Epair Etriple IHtl.
  destruct (is_producer_kind (op_type n1)) eqn:Hp1;
    [|by rewrite fuse_scan_skip, IHtl].
  destruct (is_producer_kind (op_type n2)) eqn:Hp2.
  - (* [n2] opens a pattern itself, so whatever heads the scanned tail
       cannot continue a pattern opened by [n1] *)
    destruct (fuse_scan_head n2 rest) as (z & zs & Ez & Hz).
    assert (is_consumer_kind (op_type z) = false) as Hzc.
    { destruct Hz as [-> | Hz]; [by apply producer_not_consumer | done]. }
    rewrite Ez in IHtl |- *. rewrite fuse_scan_cons2.
    rewrite fuse_pair_not_consumer by done.
    destruct zs as [|z2 zs']; [by rewrite IHtl|].
    by rewrite fuse_triple_mid_not_consumer, IHtl.
  - rewrite (fuse_scan_skip n2) in IHtl |- * by done.
    rewrite fuse_scan_cons2, Epair.
    destruct rest as [|n3 rest']; [by rewrite IHtl|].
    destruct (fuse_scan_head n3 rest') as (z & zs & Ez & Hz).
    rewrite Ez in IHtl |- *.
    destruct Hz as [-> | Hz].
    + by rewrite (Etriple n3 rest' eq_refl), IHtl.
    + by rewrite fuse_triple_last_not_consumer, IHtl.
Qed.

Lemma fuse_scan_idempotent ns : fuse_scan (fuse_scan ns) = fuse_scan ns.
Proof.
  remember (length ns) as k eqn:Hk. revert ns Hk.
  induction k as [k IH] using lt_wf_ind. intros ns Hk.
  destruct ns as [|n1 [|n2 rest]]; [done..|].
  rewrite fuse_scan_cons2.
  assert (forall f l, is_producer_kind (op_type f) = false ->
            (length l < k)%nat ->
            fuse_scan (f :: fuse_scan l) = f :: fuse_scan l) as Hfused.
  { intros f l Hf Hl. rewrite fuse_scan_skip by done. f_equal.
    by apply (IH (length l)). }
  pose proof (IH (length (n2 :: rest)) ltac:(simpl in Hk |- *; lia)
                (n2 :: rest) eq_refl) as IHtl.
  destruct (fuse_pair n1 n2) as [f|] eqn:Epair.
  { apply Hfused; [by apply fuse_pair_kind in Epair as [? _]|simpl in Hk; lia]. }
  destruct rest as [|n3 rest'].
  { apply fuse_scan_skip_stable; [done | by intros ? ? [=] | done]. }
  destruct (fuse_triple n1 n2 n3) as [f|] eqn:Etriple.
  { apply Hfused; [by apply fuse_triple_kind in Etriple as [? _]|simpl in Hk; lia]. }
  apply fuse_scan_skip_stable; [done | by intros ? ? [= <- <-] | done].
Qed.

(** ** A second run of the passes *)

Lemma fuse_pair_not_add_mul n1 n2 f :
  fuse_pair n1 n2 = Some f -> op_type f ∉ [ADD; MUL].
Proof.
  unfold fuse_pair, pair_pattern1, pair_pattern2.
  repeat case_bool_decide; simpl; try discriminate;
    destruct (_can_fuse n1 n2); try discriminate; intros [= <-]; set_solver.
Qed.

Lemma fuse_triple_not_add_mul n1 n2 n3 f :
  fuse_triple n1 n2 n3 = Some f -> op_type f ∉ [ADD; MUL].
Proof.
  unfold fuse_triple.
  destruct (_ && _ && _); [|discriminate].
  destruct (_can_fuse_triple n1 n2 n3); [|discriminate].
  intros [= <-]. set_solver.
Qed.

(** The scan keeps old nodes or builds nodes of a fused kind. *)
Lemma fuse_scan_elem ns n :
  n ∈ fuse_scan ns -> n ∈ ns \/ op_type n ∉ [ADD; MUL].
Proof.
  remember (length ns) as k eqn:Hk. revert ns Hk.
  induction k as [k IH] using lt_wf_ind. intros ns Hk.
  destruct ns as [|n1 [|n2 rest]]; [by left..|].
  rewrite fuse_scan_cons2.
  assert (n ∈ n1 :: fuse_scan (n2 :: rest) ->
          n ∈ n1 :: n2 :: rest \/ op_type n ∉ [ADD; MUL]) as Hskip.
  { intros [-> | Hn]%elem_of_cons; [left; set_solver|].
    destruct (IH (length (n2 :: rest)) ltac:(simpl in Hk |- *; lia)
                (n2 :: rest) eq_refl Hn); [left; set_solver | by right]. }
  destruct (fuse_pair n1 n2) as [f|] eqn:Epair.
  - intros [-> | Hn]%elem_of_cons;
      [right; by apply fuse_pair_not_add_mul in Epair|].
    destruct (IH (length rest) ltac:(simpl in Hk; lia) rest eq_refl Hn);
      [left; set_solver | by right].
  - destruct rest as [|n3 rest']; [done|].
    destruct (fuse_triple n1 n2 n3) as [f|] eqn:Etriple; [|done].
    intros [-> | Hn]%elem_of_cons;
      [right; by apply fuse_triple_not_add_mul in Etriple|].
    destruct (IH (length rest') ltac:(simpl in Hk; lia) rest' eq_refl Hn);
      [left; set_solver | by right].
Qed.

Lemma cf_scan_not_foldable consts ns n :
  n ∈ cf_scan consts ns -> foldable ∅ n = false.
Proof.
  intros Hn. destruct (foldable ∅ n) eqn:E; [|done].
  apply foldable_empty in E. by apply cf_scan_drops in Hn.
Qed.

(** A graph on which no pass finds anything to do is returned as it is. *)
Lemma compiled_nodes_fixed level graph :
  (level >= 1 -> forall n, n ∈ nodes graph -> foldable ∅ n = false) ->
  (level >= 1 ->
   forall n, n ∈ nodes graph ->
             produces_live (nodes graph) (output_ids graph) n) ->
  (level >= 2 -> fuse_scan (nodes graph) = nodes graph) ->
  compiled_nodes level graph = nodes graph.
Proof.
  intros Hcf Hdce Hfuse.
  assert (live_nodes level graph = nodes graph) as Hlive.
  { unfold live_nodes, folded_nodes. case_bool_decide as H1; [|done].
    rewrite cf_scan_empty_id by auto. rewrite set_nodes_id.
    apply dce_keep_all. auto. }
  unfold compiled_nodes. rewrite Hlive. case_bool_decide; auto.
Qed.

Lemma live_nodes_not_foldable level graph n :
  level >= 1 -> n ∈ live_nodes level graph -> foldable ∅ n = false.
Proof.
  intros H1. unfold live_nodes, folded_nodes.
  rewrite !bool_decide_eq_true_2 by done.
  intros [Hn _]%elem_of_dce_keep. by apply cf_scan_not_foldable in Hn.
Qed.

Lemma live_nodes_produce_live level graph n :
  level >= 1 -> n ∈ live_nodes level graph ->
  produces_live (live_nodes level graph) (output_ids graph) n.
Proof.
  intros H1. unfold live_nodes, folded_nodes.
  rewrite !bool_decide_eq_true_2 by done.
  set (g := set_nodes graph (cf_scan ∅ (nodes graph))).
  intros (_ & t & Ht & Hl)%elem_of_dce_keep.
  exists t. split; [done|]. by apply (Live_dce_keep g).
Qed.

Lemma live_nodes_sublist level graph :
  sublist (live_nodes level graph) (nodes graph).
Proof.
  unfold live_nodes, folded_nodes. case_bool_decide; [|done].
  etrans; [apply dce_keep_sublist | apply cf_scan_sublist].
Qed.

Lemma live_nodes_settled rank level graph :
  level >= 1 -> ssa (nodes graph) -> acyclic_by rank (nodes graph) ->
  settled rank (output_ids graph) (live_nodes level graph).
Proof.
  intros H1 Hssa Hacyc. split; [|split].
  - eapply ssa_sublist; [apply live_nodes_sublist | done].
  - intros n i o Hn. apply (Hacyc n).
    eapply elem_of_sublist; [done | apply live_nodes_sublist].
  - intros n Hn. by apply live_nodes_produce_live.
Qed.

(** * The properties of the specification, C1 to C10 *)

(** C1, counterexample.  In the Scenario 2 graph tensor 2 is read by the
    ReLU and by a third node, so its fan-out is 2; compiling at level 2
    fuses MatMul and ReLU all the same, and the third node keeps reading
    tensor 2, which no remaining node produces. *)
Lemma fusion_ignores_fan_out :
  fan_out (nodes scenario2_graph) 2 = 2%nat
  /\ nodes (snd (compile 0 0 (ModelCompiler_new 2) scenario2_graph))
     = [ GraphNode_new 0 FUSED_MATMUL_RELU "fused_fc_relu" [0; 1] [3] ∅;
         GraphNode_new 2 SILU "side" [2] [4] ∅ ].
Proof. split; vm_compute; reflexivity. Qed.

(** C1, as amended.  A candidate chain is left unfused, with all its nodes
    in place, whenever the boundary check of the pass fails: the producer
    does not have exactly one output, or the consumer does not have exactly
    one input, or the two ids differ (for Conv2D + BatchNorm + ReLU, when
    this fails at either of the two boundaries).  The check looks at the two
    adjacent nodes only; readers of the intermediate tensor elsewhere in the
    graph are not consulted. *)
Theorem fusion_blocked_by_boundary_check self graph pre rest n1 n2 n3 :
  let ns' := nodes (snd (_operator_fusion self graph)) in
  (nodes graph = pre ++ n1 :: n2 :: rest ->
   (op_type n1 = MATMUL /\ op_type n2 ∈ [RELU; GELU])
   \/ (op_type n1 = LAYERNORM
       /\ op_type n2 ∈ [ATTENTION; MULTI_HEAD_ATTENTION]) ->
   _can_fuse n1 n2 = false ->
   ns' = fuse_scan pre ++ n1 :: n2 :: fuse_scan rest)
  /\ (nodes graph = pre ++ n1 :: n2 :: n3 :: rest ->
      op_type n1 = CONV2D -> op_type n2 = BATCHNORM -> op_type n3 = RELU ->
      _can_fuse_triple n1 n2 n3 = false ->
      ns' = fuse_scan pre ++ n1 :: n2 :: n3 :: fuse_scan rest).
Proof.
  intros ns'. subst ns'. rewrite operator_fusion_scan. simpl. split.
  - intros -> Hkinds Hcan.
    assert (is_producer_kind (op_type n1) = true
            /\ op_type n1 <> CONV2D
            /\ is_producer_kind (op_type n2) = false) as (Hp & Hc & Hk).
    { destruct Hkinds as [[-> H2] | [-> H2]]; (split; [done|]);
        (split; [done|]);
        repeat (apply elem_of_cons in H2 as [-> | H2]; [done|]);
        by apply elem_of_nil in H2. }
    rewrite fuse_scan_app.
    + f_equal. apply fuse_scan_keep_pair; [|intros n|done].
      * by apply fuse_pair_blocked.
      * by apply fuse_triple_not_conv.
    + intros x [= <-]. by apply producer_not_consumer.
  - intros -> H1 H2 H3 Hcan.
    rewrite fuse_scan_app.
    + f_equal. rewrite fuse_scan_cons2.
      rewrite fuse_pair_conv, fuse_triple_blocked by done.
      rewrite (fuse_scan_skip n2) by (by rewrite H2).
      by rewrite (fuse_scan_skip n3) by (by rewrite H3).
    + intros x [= <-]. by rewrite H1.
Qed.

(** The theorem at [blocked_graph], whose ReLU reads tensor 2 twice. *)
Lemma fusion_blocked_by_boundary_check_witness :
  nodes (snd (_operator_fusion (ModelCompiler_new 2) blocked_graph))
  = fuse_scan []
    ++ GraphNode_new 0 MATMUL "fc" [0; 1] [2] ∅
       :: GraphNode_new 1 RELU "relu" [2; 2] [3] ∅ :: fuse_scan [].
Proof.
  apply (proj1 (fusion_blocked_by_boundary_check (ModelCompiler_new 2)
                  blocked_graph [] []
                  (GraphNode_new 0 MATMUL "fc" [0; 1] [2] ∅)
                  (GraphNode_new 1 RELU "relu" [2; 2] [3] ∅)
                  (GraphNode_new 1 RELU "relu" [2; 2] [3] ∅))).
  - reflexivity.
  - left. split; [reflexivity|]. left.
  - vm_compute. reflexivity.
Defined.

(** C2, counterexample.  In the Scenario 3 graph the Add node is still
    there after compiling at level 1: nothing marks the literal tensors 10
    and 11 as constant, so the Add node is not folded. *)
Lemma scenario3_add_survives :
  nodes (snd (compile 0 0 (ModelCompiler_new 1) scenario3_graph))
  = [scenario3_add; scenario3_matmul].
Proof. vm_compute. reflexivity. Qed.

(** C2, as amended.  The constant set of the folding pass starts empty and
    is fed only by the outputs of nodes folded earlier in the same sweep.
    Hence for every graph in which each Add/Multiply node has at least one
    input, the pass changes nothing: same nodes, same tensor table, same
    statistics.  In particular, for the graph [Add(lit1,lit2)->x,
    MatMul(x,w)->y] with declared output [y], both nodes remain after
    [compile], whatever the level. *)
Theorem folding_without_seed :
  (forall self graph,
     (forall n, n ∈ nodes graph -> op_type n ∈ [ADD; MUL] -> inputs n <> []) ->
     _constant_folding self graph = (self, graph))
  /\ (forall t0 t1 self (lit1 lit2 x w y id1 id2 : Z) name1 name2 attrs1 attrs2
             tens ins,
        let graph :=
          ComputationalGraph_new
            [ GraphNode_new id1 ADD name1 [lit1; lit2] [x] attrs1;
              GraphNode_new id2 MATMUL name2 [x; w] [y] attrs2 ]
            tens ins [y] in
        nodes (snd (compile t0 t1 self graph)) = nodes graph).
Proof.
  split.
  - intros self graph H. rewrite constant_folding_scan.
    rewrite cf_scan_empty_id.
    + rewrite set_nodes_id. f_equal.
      destruct self as [level st], st. unfold with_stats, add_constants_folded.
      simpl. do 2 f_equal. lia.
    + intros n Hn. destruct (foldable ∅ n) eqn:E; [|done].
      apply foldable_empty in E as [Hi Ho]. by destruct (H n Hn Ho).
  - intros t0 t1 self lit1 lit2 x w y id1 id2 name1 name2 attrs1 attrs2
      tens ins graph.
    rewrite compile_spec. simpl.
    set (n1 := GraphNode_new id1 ADD name1 [lit1; lit2] [x] attrs1).
    set (n2 := GraphNode_new id2 MATMUL name2 [x; w] [y] attrs2).
    assert (cf_scan ∅ [n1; n2] = [n1; n2]) as Hcf.
    { apply cf_scan_empty_id. intros n Hn.
      destruct (foldable ∅ n) eqn:E; [|done].
      apply foldable_empty in E as [Hi Ho].
      apply elem_of_cons in Hn as [->|Hn]; [done|].
      apply list_elem_of_singleton in Hn as ->. set_solver. }
    assert (dce_keep (set_nodes graph [n1; n2]) = [n1; n2]) as Hdce.
    { apply dce_keep_all. simpl. intros n Hn.
      assert (Live [n1; n2] [y] y) as Hy by (apply Live_output; set_solver).
      apply elem_of_cons in Hn as [->|Hn].
      - exists x. split; [set_solver|].
        apply (Live_input _ _ n2 y x); [set_solver.. | done | set_solver].
      - apply list_elem_of_singleton in Hn as ->.
        exists y. split; [set_solver | done]. }
    assert (fuse_scan [n1; n2] = [n1; n2]) as Hfuse.
    { by rewrite fuse_scan_skip. }
    unfold compiled_nodes, live_nodes, folded_nodes.
    change (nodes graph) with [n1; n2].
    repeat case_bool_decide; rewrite ?Hcf, ?Hdce, ?Hfuse; done.
Qed.

(** The theorem at the Scenario 3 graph. *)
Lemma folding_without_seed_witness :
  _constant_folding (ModelCompiler_new 1) scenario3_graph
  = (ModelCompiler_new 1, scenario3_graph).
Proof.
  apply (proj1 folding_without_seed).
  intros n Hn Ho.
  apply elem_of_cons in Hn as [-> | Hn]; [discriminate|].
  apply list_elem_of_singleton in Hn as ->.
  apply elem_of_cons in Ho as [Ho | Ho]; [discriminate|].
  apply list_elem_of_singleton in Ho. discriminate.
Defined.

(** C3, counterexample.  The only node of [two_outputs_graph] survives
    dead code elimination although its output 2 is not backward-reachable
    from the declared output 1.  And in [shared_output_graph], where tensor
    1 has two producers, both survive, yet the second can be removed without
    any live tensor losing its producer. *)
Lemma dce_keeps_dead_output :
  let kept :=
    nodes (snd (_dead_code_elimination (ModelCompiler_new 1) two_outputs_graph)) in
  let kept' :=
    nodes (snd (_dead_code_elimination (ModelCompiler_new 1) shared_output_graph)) in
  (kept = [two_outputs]
   /\ 2 ∈ outputs two_outputs
   /\ ~ Live kept (output_ids two_outputs_graph) 2)
  /\ (kept' = [two_outputs; second_producer]
      /\ forall t,
           Live kept' (output_ids shared_output_graph) t ->
           (exists m, m ∈ kept' /\ t ∈ outputs m) ->
           exists m, m ∈ [two_outputs] /\ t ∈ outputs m).
Proof.
  assert (nodes (snd (_dead_code_elimination (ModelCompiler_new 1)
                        two_outputs_graph))
          = [two_outputs]) as E by (vm_compute; reflexivity).
  assert (nodes (snd (_dead_code_elimination (ModelCompiler_new 1)
                        shared_output_graph))
          = [two_outputs; second_producer]) as E' by (vm_compute; reflexivity).
  cbv zeta. rewrite E, E'. split.
  - split; [done|]. split; [set_solver|].
    intros H. apply (dce_reachable_spec two_outputs_graph) in H.
    apply (bool_decide_eq_true_2 _) in H. vm_compute in H. discriminate.
  - split; [done|].
    assert (~ Live [two_outputs; second_producer] [1] 2) as Hdead.
    { intros H. apply (dce_reachable_spec shared_output_graph) in H.
      apply (bool_decide_eq_true_2 _) in H. vm_compute in H. discriminate. }
    intros t Ht (m & Hm & Htm). exists two_outputs. split; [set_solver|].
    assert (t = 1 \/ t = 2) as [-> | ->]; [|set_solver|done].
    apply elem_of_cons in Hm as [-> | Hm].
    + simpl in Htm. set_solver.
    + apply list_elem_of_singleton in Hm as ->. simpl in Htm. set_solver.
Qed.

(** C3, as amended.  After dead code elimination a node remains exactly
    when at least one of its outputs is backward-reachable from the declared
    outputs (not necessarily all of them); the pass does not change which
    tensors are reachable, so every remaining node still produces a live
    tensor in the resulting graph.  On an SSA graph the result is minimal:
    every remaining node is the only producer of some live tensor, so
    removing it leaves that tensor without a producer. *)
Theorem dce_keeps_live_producers self graph :
  let graph' := snd (_dead_code_elimination self graph) in
  let outs := output_ids graph in
  (forall n, n ∈ nodes graph'
             <-> n ∈ nodes graph /\ produces_live (nodes graph) outs n)
  /\ (forall t, Live (nodes graph') outs t <-> Live (nodes graph) outs t)
  /\ (forall n, n ∈ nodes graph' -> produces_live (nodes graph') outs n)
  /\ (ssa (nodes graph) ->
      forall l1 n l2,
        nodes graph' = l1 ++ n :: l2 ->
        exists t, Live (nodes graph') outs t
                  /\ t ∈ outputs n
                  /\ forall m, m ∈ l1 ++ l2 -> t ∉ outputs m).
Proof.
  intros graph' outs. subst graph' outs.
  rewrite dead_code_elimination_keep. simpl.
  assert (forall n, n ∈ dce_keep graph ->
            produces_live (dce_keep graph) (output_ids graph) n) as Hkept.
  { intros n (_ & t & Ht & Hl)%elem_of_dce_keep.
    exists t. split; [done|]. by apply Live_dce_keep. }
  split; [apply elem_of_dce_keep|]. split; [apply Live_dce_keep|].
  split; [done|].
  intros Hssa l1 n l2 E.
  destruct (Hkept n) as (t & Ht & Hl); [rewrite E; set_solver|].
  exists t. split; [done|]. split; [done|].
  apply ssa_sole_producer with (n := n); [|done].
  rewrite <- E. eapply ssa_sublist; [apply dce_keep_sublist | done].
Qed.

(** Minimality at the Scenario 1 graph, for its MatMul node. *)
Lemma dce_keeps_live_producers_witness :
  exists t,
    Live (nodes (snd (_dead_code_elimination (ModelCompiler_new 1) scenario1_graph)))
         (output_ids scenario1_graph) t
    /\ t ∈ outputs (GraphNode_new 0 MATMUL "fc" [0; 1] [2] ∅)
    /\ forall m, m ∈ [] ++ [GraphNode_new 1 RELU "relu" [2] [3] ∅] ->
                 t ∉ outputs m.
Proof.
  destruct (dce_keeps_live_producers (ModelCompiler_new 1) scenario1_graph)
    as (_ & _ & _ & Hmin).
  apply Hmin.
  - apply (bool_decide_unpack _). vm_compute. exact I.
  - vm_compute. reflexivity.
Defined.

(** C4.  Scenario 1: for the two-node graph [MatMul(a,b)->c, ReLU(c)->d]
    with declared outputs {d}, compiling at level 2 leaves exactly one node,
    of kind FUSED_MATMUL_RELU, with inputs [a,b] and outputs [d]. *)
Theorem scenario1_fused t0 t1 st (a b c d id1 id2 : Z) name1 name2 attrs1 attrs2
    tens ins :
  let graph :=
    ComputationalGraph_new
      [ GraphNode_new id1 MATMUL name1 [a; b] [c] attrs1;
        GraphNode_new id2 RELU name2 [c] [d] attrs2 ]
      tens ins [d] in
  exists f,
    nodes (snd (compile t0 t1 (mkModelCompiler 2 st) graph)) = [f]
    /\ op_type f = FUSED_MATMUL_RELU
    /\ inputs f = [a; b]
    /\ outputs f = [d].
Proof.
  intros graph. rewrite compile_spec. simpl.
  unfold compiled_nodes, live_nodes, folded_nodes. simpl.
  set (n1 := GraphNode_new id1 MATMUL name1 [a; b] [c] attrs1).
  set (n2 := GraphNode_new id2 RELU name2 [c] [d] attrs2).
  rewrite !foldable_not_add_mul by (simpl; set_solver).
  rewrite dce_keep_all.
  - exists (_fuse_matmul_activation n1 n2 FUSED_MATMUL_RELU). split; [|done].
    simpl. unfold fuse_pair, pair_pattern1, _can_fuse. simpl.
    by rewrite bool_decide_eq_true_2.
  - simpl. intros n Hn.
    assert (Live [n1; n2] [d] d) as Hd by (apply Live_output; set_solver).
    apply elem_of_cons in Hn as [->|Hn].
    + exists c. split; [set_solver|].
      apply (Live_input _ _ n2 d c); [set_solver.. | done | set_solver].
    + apply list_elem_of_singleton in Hn as ->. exists d. split; [set_solver|done].
Qed.

(** C5, counterexample.  Fusing a MatMul with a GELU that carries the
    attribute [approximate] gives a node whose attributes are the MatMul's
    alone, not the union of the two nodes' attributes. *)
Lemma fused_matmul_drops_activation_attributes :
  exists mm f,
    nodes attribute_graph = [mm; gelu_with_attribute]
    /\ nodes (snd (_operator_fusion (ModelCompiler_new 2) attribute_graph)) = [f]
    /\ attributes f
       <> dict_merge (attributes mm) (attributes gelu_with_attribute).
Proof.
  eexists _, _. split; [reflexivity|]. split; [vm_compute; reflexivity|].
  intros H.
  apply (f_equal (fun m : gmap string PyVal => m !! "approximate")) in H.
  vm_compute in H. discriminate.
Qed.

(** C5, as amended.  Whenever the fusion pass meets a matching chain, the
    chain is replaced by one node with the fused kind, the first node's id
    and inputs and the last node's outputs, and the other nodes of the chain
    are deleted; what precedes and what follows the chain is scanned
    independently.  The attributes are the MatMul's alone for MatMul +
    ReLU/GELU, the LayerNorm's merged with the Attention's for LayerNorm +
    Attention, and the Conv2D's merged with the BatchNorm's for the triple:
    the attributes of a fused ReLU or GELU are dropped. *)
Theorem fused_node_construction self graph pre rest n1 n2 n3 :
  let ns' := nodes (snd (_operator_fusion self graph)) in
  (nodes graph = pre ++ n1 :: n2 :: rest ->
   _can_fuse n1 n2 = true ->
   (op_type n1 = MATMUL -> op_type n2 = RELU ->
    exists f, ns' = fuse_scan pre ++ f :: fuse_scan rest
              /\ built_from n1 n2 FUSED_MATMUL_RELU (attributes n1) f)
   /\ (op_type n1 = MATMUL -> op_type n2 = GELU ->
       exists f, ns' = fuse_scan pre ++ f :: fuse_scan rest
                 /\ built_from n1 n2 FUSED_MATMUL_GELU (attributes n1) f)
   /\ (op_type n1 = LAYERNORM ->
       op_type n2 ∈ [ATTENTION; MULTI_HEAD_ATTENTION] ->
       exists f, ns' = fuse_scan pre ++ f :: fuse_scan rest
                 /\ built_from n1 n2 FUSED_LAYERNORM_ATTENTION
                      (dict_merge (attributes n1) (attributes n2)) f))
  /\ (nodes graph = pre ++ n1 :: n2 :: n3 :: rest ->
      _can_fuse_triple n1 n2 n3 = true ->
      op_type n1 = CONV2D -> op_type n2 = BATCHNORM -> op_type n3 = RELU ->
      exists f, ns' = fuse_scan pre ++ f :: fuse_scan rest
                /\ built_from n1 n3 FUSED_CONV_BATCHNORM_RELU
                     (dict_merge (attributes n1) (attributes n2)) f).
Proof.
  intros ns'. subst ns'. rewrite operator_fusion_scan. simpl.
  assert (forall l, is_producer_kind (op_type n1) = true ->
            fuse_scan (pre ++ n1 :: l) = fuse_scan pre ++ fuse_scan (n1 :: l))
    as Hsplit.
  { intros l Hp. apply fuse_scan_app. intros x [= <-].
    by apply producer_not_consumer. }
  split.
  - intros -> Hcan. repeat split.
    + intros H1 H2. exists (_fuse_matmul_activation n1 n2 FUSED_MATMUL_RELU).
      rewrite Hsplit by (by rewrite H1). split; [|done]. f_equal.
      apply fuse_scan_pair. unfold fuse_pair, pair_pattern1.
      by rewrite H1, H2, Hcan.
    + intros H1 H2. exists (_fuse_matmul_activation n1 n2 FUSED_MATMUL_GELU).
      rewrite Hsplit by (by rewrite H1). split; [|done]. f_equal.
      apply fuse_scan_pair. unfold fuse_pair, pair_pattern1.
      by rewrite H1, H2, Hcan.
    + intros H1 H2. exists (_fuse_layernorm_attention n1 n2).
      rewrite Hsplit by (by rewrite H1). split; [|done]. f_equal.
      apply fuse_scan_pair. unfold fuse_pair, pair_pattern1, pair_pattern2.
      by rewrite H1, Hcan, (bool_decide_eq_true_2 _ H2).
  - intros -> Hcan H1 H2 H3. exists (_fuse_conv_bn_relu n1 n2 n3).
    rewrite Hsplit by (by rewrite H1). split; [|done]. f_equal.
    apply fuse_scan_triple.
    + unfold fuse_pair, pair_pattern1, pair_pattern2. by rewrite H1.
    + unfold fuse_triple. by rewrite H1, H2, H3, Hcan.
Qed.

(** The MatMul + ReLU case at the Scenario 1 graph. *)
Lemma fused_node_construction_witness :
  exists f,
    nodes (snd (_operator_fusion (ModelCompiler_new 2) scenario1_graph))
    = fuse_scan [] ++ f :: fuse_scan []
    /\ built_from (GraphNode_new 0 MATMUL "fc" [0; 1] [2] ∅)
         (GraphNode_new 1 RELU "relu" [2] [3] ∅)
         FUSED_MATMUL_RELU ∅ f.
Proof.
  pose proof (fused_node_construction (ModelCompiler_new 2) scenario1_graph []
                [] (GraphNode_new 0 MATMUL "fc" [0; 1] [2] ∅)
                (GraphNode_new 1 RELU "relu" [2] [3] ∅)
                (GraphNode_new 1 RELU "relu" [2] [3] ∅)) as [Hpair _].
  specialize (Hpair eq_refl eq_refl) as [Hrelu _].
  exact (Hrelu eq_refl eq_refl).
Defined.

(** C6, counterexample.  In [two_producers_graph] tensor 2 is written by
    two nodes.  The first run at level 2 keeps both producers and fuses
    MatMul + ReLU; in the second run nothing reads tensor 2 through a kept
    node any more, so dead code elimination removes the other producer: the
    second run returns one node where the first returned two. *)
Lemma compile_twice_differs :
  let first := compile 0 0 (ModelCompiler_new 2) two_producers_graph in
  let second := compile 0 0 (fst first) (snd first) in
  map op_type (nodes (snd first)) = [SILU; FUSED_MATMUL_RELU]
  /\ map op_type (nodes (snd second)) = [FUSED_MATMUL_RELU]
  /\ nodes (snd second) <> nodes (snd first).
Proof.
  cbv zeta. split; [vm_compute; reflexivity|].
  split; [vm_compute; reflexivity|].
  intros H. apply (f_equal length) in H. vm_compute in H. discriminate.
Qed.

(** C6, as amended.  Running [compile] again on the result of [compile]
    returns the same node list and the same tensor table: at levels below 2
    for every graph, and at level 2 and above for every graph that satisfies
    the invariants of the data model (SSA: no tensor id is produced twice;
    acyclic: the tensor ids can be ranked so that every node's outputs rank
    above its inputs). *)
Theorem compile_idempotent t0 t1 t2 t3 self graph :
  (optimization_level self >= 2 ->
   ssa (nodes graph) /\ acyclic (nodes graph)) ->
  let first := compile t0 t1 self graph in
  let second := compile t2 t3 (fst first) (snd first) in
  nodes (snd second) = nodes (snd first)
  /\ tensors (snd second) = tensors (snd first).
Proof.
  intros Hwf. cbv zeta. rewrite !compile_spec. simpl.
  split; [|done].
  set (level := optimization_level self) in *.
  set (g1 := mkComputationalGraph (compiled_nodes level graph) (tensors graph)
               (input_ids graph) (output_ids graph) true).
  apply (compiled_nodes_fixed level g1); simpl.
  - intros H1 n. unfold compiled_nodes. case_bool_decide.
    + intros [Hn | Hn]%fuse_scan_elem.
      * by apply (live_nodes_not_foldable level graph).
      * by apply foldable_not_add_mul.
    + by apply live_nodes_not_foldable.
  - intros H1. unfold compiled_nodes. case_bool_decide as H2.
    + destruct (Hwf H2) as [Hssa [rank Hacyc]].
      pose proof (live_nodes_settled rank level graph H1 Hssa Hacyc) as Hs.
      apply (fuse_scan_settled rank _ _ []) in Hs. by destruct Hs as (_ & _ & ?).
    + intros n. by apply live_nodes_produce_live.
  - intros H2. unfold compiled_nodes. rewrite bool_decide_eq_true_2 by done.
    apply fuse_scan_idempotent.
Qed.

(** The theorem at the Scenario 1 graph, ranked by the tensor ids. *)
Lemma compile_idempotent_witness :
  let first := compile 0 0 (ModelCompiler_new 2) scenario1_graph in
  let second := compile 0 0 (fst first) (snd first) in
  nodes (snd second) = nodes (snd first)
  /\ tensors (snd second) = tensors (snd first).
Proof.
  apply compile_idempotent. intros _. split.
  - apply (bool_decide_unpack _). vm_compute. exact I.
  - exists Z.to_nat. intros n i o Hn Hi Ho.
    apply elem_of_cons in Hn as [-> | Hn].
    + apply elem_of_cons in Hi as [-> | Hi];
        [|apply list_elem_of_singleton in Hi as ->];
        apply list_elem_of_singleton in Ho as ->; simpl; lia.
    + apply list_elem_of_singleton in Hn as ->.
      apply list_elem_of_singleton in Hi as ->.
      apply list_elem_of_singleton in Ho as ->. simpl. lia.
Defined.

(** C7, counterexample.  Profiling the Scenario 1 graph changes its node
    list: the first node had [execution_time_ms = 0.0] and has 5.0 after. *)
Lemma profile_graph_writes_nodes :
  nodes (fst (profile_graph (ModelCompiler_new 2) scenario1_graph))
  <> nodes scenario1_graph.
Proof.
  intros H.
  apply (f_equal (fun l : list GraphNode =>
                    match l with
                    | n :: _ => PrimFloat.ltb 0 (execution_time_ms n)
                    | [] => false
                    end)) in H.
  vm_compute in H. discriminate.
Qed.

(** C7, as amended.  [profile_graph] leaves the tensor table, the input and
    output ids and the [optimized] flag as they were, and keeps the node
    list in length and order; of each node it keeps every field except
    [execution_time_ms], which it overwrites with the simulated time of the
    node's kind.  The report gives the number of nodes, the total of the
    simulated times, and for every op kind that occurs in the graph its
    count, total time, average and percentage of the total (no entry for a
    kind that does not occur). *)
Theorem profile_graph_frame self graph :
  let graph' := fst (profile_graph self graph) in
  let report := snd (profile_graph self graph) in
  tensors graph' = tensors graph
  /\ input_ids graph' = input_ids graph
  /\ output_ids graph' = output_ids graph
  /\ optimized graph' = optimized graph
  /\ nodes graph' = map stamp (nodes graph)
  /\ (forall n,
        id (stamp n) = id n /\ op_type (stamp n) = op_type n
        /\ name (stamp n) = name n /\ inputs (stamp n) = inputs n
        /\ outputs (stamp n) = outputs n
        /\ attributes (stamp n) = attributes n
        /\ memory_usage_mb (stamp n) = memory_usage_mb n
        /\ execution_time_ms (stamp n) = simulated_time n)
  /\ num_operations report = len (nodes graph)
  /\ total_execution_time_ms report
     = py_sum (map simulated_time (nodes graph))
  /\ forall op,
       op_breakdown report !! op_name op
       = match times_of_kind op (nodes graph) with
         | [] => None
         | t :: ts =>
             Some (mkOpStats
                     (len (t :: ts))
                     (py_sum (t :: ts))
                     (py_sum (t :: ts) / float_of_int (len (t :: ts)))%float
                     (if PrimFloat.ltb 0%float (total_execution_time_ms report)
                      then (py_sum (t :: ts)
                            / total_execution_time_ms report * 100)%float
                      else 0%float))
         end.
Proof.
  intros graph' report. subst graph' report. unfold profile_graph.
  destruct (profile_fold (nodes graph) (mkProfileState [] 0%float ∅))
    as (Hn & Ht & Hk).
  simpl in *. rewrite Hn.
  do 4 (split; [done|]). split; [done|]. split; [done|].
  split; [unfold len; by rewrite length_map|].
  split; [done|].
  intros op. rewrite lookup_fmap, Hk, lookup_empty, times_of_name_kind.
  destruct (times_of_kind op (nodes graph)); done.
Qed.

(** C8.  [compile] assigns [original_ops] and [optimized_ops] afresh on
    every run, but only adds to [ops_fused], [constants_folded] and
    [dead_ops_removed]: after a run these three read what they read before
    plus what the run contributed.  With one compiler used for two runs on
    [busy_graph], the second run leaves [original_ops = 4] and
    [optimized_ops = 1] and the three counters at 2, where the run fused,
    folded and removed one node each. *)
Theorem stats_carry_over_between_runs :
  (forall t0 t1 self graph,
     let self' := fst (compile t0 t1 self graph) in
     let level := optimization_level self in
     original_ops (stats self') = len (nodes graph)
     /\ optimized_ops (stats self') = len (nodes (snd (compile t0 t1 self graph)))
     /\ ops_fused (stats self')
        = ops_fused (stats self)
          + (if bool_decide (level >= 2)
             then fuse_count (live_nodes level graph) else 0)
     /\ constants_folded (stats self')
        = constants_folded (stats self)
          + (len (nodes graph) - len (folded_nodes level graph))
     /\ dead_ops_removed (stats self')
        = dead_ops_removed (stats self)
          + (len (folded_nodes level graph) - len (live_nodes level graph)))
  /\ (let c0 := ModelCompiler_new 2 in
      let c1 := fst (compile 0 0 c0 busy_graph) in
      let c2 := fst (compile 0 0 c1 busy_graph) in
      (original_ops (stats c1), optimized_ops (stats c1), ops_fused (stats c1),
       constants_folded (stats c1), dead_ops_removed (stats c1))
      = (4, 1, 1, 1, 1)
      /\ (original_ops (stats c2), optimized_ops (stats c2),
          ops_fused (stats c2), constants_folded (stats c2),
          dead_ops_removed (stats c2))
         = (4, 1, 2, 2, 2)).
Proof.
  split.
  - intros t0 t1 self graph. cbv zeta. rewrite compile_spec. done.
  - split; vm_compute; reflexivity.
Qed.

(** C9.  For every graph and every optimisation level, [compile] leaves the
    tensor table, the graph input ids and the graph output ids as they were;
    only the node list may differ, and the returned graph always has
    [optimized = True] (also at level 0 and on an empty graph). *)
Theorem compile_frame t0 t1 self graph :
  let graph' := snd (compile t0 t1 self graph) in
  tensors graph' = tensors graph
  /\ input_ids graph' = input_ids graph
  /\ output_ids graph' = output_ids graph
  /\ optimized graph' = true.
Proof. rewrite compile_spec. done. Qed.

(** C10.  In the constant-folding pass an Add or Multiply node whose input
    list is empty counts as having only constant inputs and is deleted; the
    pass adds no node in its place (what remains is a sublist of the old
    node list, and the tensor table is untouched).  This also happens when
    one of its outputs is a declared graph output: if the node was the only
    producer of that tensor, no node of the resulting graph produces it. *)
Theorem folding_deletes_input_less_node self graph n :
  n ∈ nodes graph ->
  inputs n = [] ->
  op_type n ∈ [ADD; MUL] ->
  let graph' := snd (_constant_folding self graph) in
  (n ∉ nodes graph')
  /\ sublist (nodes graph') (nodes graph)
  /\ tensors graph' = tensors graph
  /\ output_ids graph' = output_ids graph
  /\ forall t,
       t ∈ outputs n ->
       t ∈ output_ids graph ->
       (forall m, m ∈ nodes graph -> t ∈ outputs m -> m = n) ->
       forall m, m ∈ nodes graph' -> t ∉ outputs m.
Proof.
  intros Hn Hi Ho graph'. subst graph'. rewrite constant_folding_scan. simpl.
  assert (n ∉ cf_scan ∅ (nodes graph)) as Hgone.
  { intros Hin. apply cf_scan_drops in Hin. by apply Hin. }
  split; [done|]. split; [apply cf_scan_sublist|]. do 2 (split; [done|]).
  intros t Ht _ Hsole m Hm Htm.
  assert (m ∈ nodes graph) as Hm'.
  { eapply elem_of_sublist; [done | apply cf_scan_sublist]. }
  by rewrite (Hsole m Hm' Htm) in Hm.
Qed.

(** The theorem at [orphan_graph]: its only node is deleted and the declared
    output 1 is left without a producer. *)
Lemma folding_deletes_input_less_node_witness :
  (orphan_add ∉ nodes (snd (_constant_folding (ModelCompiler_new 1) orphan_graph)))
  /\ forall m,
       m ∈ nodes (snd (_constant_folding (ModelCompiler_new 1) orphan_graph)) ->
       1 ∉ outputs m.
Proof.
  assert (orphan_add ∈ nodes orphan_graph) as Hn
    by (apply list_elem_of_singleton; reflexivity).
  assert (inputs orphan_add = []) as Hi by reflexivity.
  assert (op_type orphan_add ∈ [ADD; MUL]) as Ho by (left; reflexivity).
  destruct (folding_deletes_input_less_node (ModelCompiler_new 1) orphan_graph
              orphan_add Hn Hi Ho) as (Hgone & _ & _ & _ & Hout).
  split; [exact Hgone|].
  apply (Hout 1).
  - apply list_elem_of_singleton. reflexivity.
  - apply list_elem_of_singleton. reflexivity.
  - intros m Hm _. apply list_elem_of_singleton in Hm. exact Hm.
Defined.

(** * Further properties of the passes, X1 to X20 *)

(** ** Tensor shapes *)





(** ** Constant folding *)

Lemma elem_of_mark_outputs consts n x :
  x ∈ mark_outputs consts n <-> x ∈ consts \/ x ∈ outputs n.
Proof.
  unfold mark_outputs. revert consts.
  induction (outputs n) as [|o l IH]; intros consts; simpl.
  - split; [by left | intros [?|?%elem_of_nil]; done].
  - rewrite IH, elem_of_cons. set_solver.
Qed.

Lemma all_inputs_constant_spec consts n :
  all_inputs_constant consts n = true <-> forall t, t ∈ inputs n -> t ∈ consts.
Proof.
  unfold all_inputs_constant. rewrite forallb_forall. split.
  - intros H t Ht. apply list_elem_of_In in Ht.
    specialize (H t Ht). by apply bool_decide_eq_true in H.
  - intros H t Ht. apply bool_decide_eq_true. apply H. by apply list_elem_of_In.
Qed.

Lemma cf_scan_keeps_other_kinds consts ns n :
  n ∈ ns -> op_type n ∉ [ADD; MUL] -> n ∈ cf_scan consts ns.
Proof.
  revert consts. induction ns as [|m ns IH]; intros consts Hn Hop; simpl.
  - by apply elem_of_nil in Hn.
  - apply elem_of_cons in Hn as [<- | Hn].
    + rewrite foldable_not_add_mul by done. by left.
    + destruct (foldable consts m); [|right]; by apply IH.
Qed.

Lemma cf_scan_length consts ns : (length (cf_scan consts ns) <= length ns)%nat.
Proof. apply sublist_length, cf_scan_sublist. Qed.

(** A node keeps its place when it reads a tensor that is neither constant
    at the start nor written by an Add/Multiply node of the list. *)
Lemma cf_scan_keeps_reader consts ns n t :
  t ∉ consts ->
  (forall m, m ∈ ns -> op_type m ∈ [ADD; MUL] -> t ∉ outputs m) ->
  n ∈ ns -> t ∈ inputs n ->
  n ∈ cf_scan consts ns.
Proof.
  revert consts. induction ns as [|m ns IH]; intros consts Ht Hprod Hn Hin.
  - by apply elem_of_nil in Hn.
  - simpl. destruct (foldable consts m) eqn:E.
    + unfold foldable in E.
      apply andb_true_iff in E as [Hall Hop%bool_decide_eq_true].
      apply elem_of_cons in Hn as [-> | Hn].
      * destruct Ht. by apply (proj1 (all_inputs_constant_spec consts m) Hall).
      * apply IH; [|set_solver|done..].
        intros [?|?]%elem_of_mark_outputs; [done|].
        apply (Hprod m); [set_solver|done..].
    + apply elem_of_cons in Hn as [-> | Hn]; [by left|].
      right. apply IH; [done|set_solver|done..].
Qed.

(** X2.  [_constant_folding] only deletes, and only Add/Multiply nodes: the
    resulting node list is a sublist of the old one (same order), every node
    of another kind is still there, [constants_folded] grows by exactly the
    number of nodes deleted, and no other counter, nor the tensor table or
    the input and output ids, changes. *)
Theorem constant_folding_only_deletes self graph :
  let self' := fst (_constant_folding self graph) in
  let graph' := snd (_constant_folding self graph) in
  sublist (nodes graph') (nodes graph)
  /\ Forall (fun n => op_type n ∈ [ADD; MUL] \/ n ∈ nodes graph') (nodes graph)
  /\ constants_folded (stats self')
     = constants_folded (stats self) + (len (nodes graph) - len (nodes graph'))
  /\ 0 <= len (nodes graph) - len (nodes graph')
  /\ (original_ops (stats self'), optimized_ops (stats self'),
      ops_fused (stats self'), dead_ops_removed (stats self'))
     = (original_ops (stats self), optimized_ops (stats self),
        ops_fused (stats self), dead_ops_removed (stats self))
  /\ (tensors graph', input_ids graph', output_ids graph', optimized graph')
     = (tensors graph, input_ids graph, output_ids graph, optimized graph).
Proof.
  cbv zeta. rewrite constant_folding_scan. simpl.
  split; [apply cf_scan_sublist|]. split.
  - apply Forall_forall. intros n Hn.
    destruct (decide (op_type n ∈ [ADD; MUL])) as [Hop | Hop]; [by left|].
    right. by apply cf_scan_keeps_other_kinds.
  - split; [done|]. split; [|done].
    pose proof (cf_scan_length ∅ (nodes graph)). unfold len. lia.
Qed.

(** X3.  A node that reads a tensor which no Add/Multiply node of the graph
    writes (a graph input, a weight, the output of any other kind of node)
    is never folded away. *)
Theorem constant_folding_keeps_readers_of_inputs self graph n t :
  n ∈ nodes graph ->
  t ∈ inputs n ->
  (forall m, m ∈ nodes graph -> op_type m ∈ [ADD; MUL] -> t ∉ outputs m) ->
  n ∈ nodes (snd (_constant_folding self graph)).
Proof.
  intros Hn Ht Hprod. rewrite constant_folding_scan. simpl.
  by apply (cf_scan_keeps_reader ∅ (nodes graph) n t).
Qed.

(** In Scenario 3 the Add node reads tensor 10, which no node writes. *)
Lemma constant_folding_keeps_readers_of_inputs_witness :
  scenario3_add ∈ nodes (snd (_constant_folding (ModelCompiler_new 1) scenario3_graph)).
Proof.
  apply (constant_folding_keeps_readers_of_inputs _ _ _ 10).
  - left.
  - left.
  - intros m Hm _ Hout.
    apply elem_of_cons in Hm as [-> | Hm].
    + apply list_elem_of_singleton in Hout. discriminate.
    + apply list_elem_of_singleton in Hm as ->.
      apply list_elem_of_singleton in Hout. discriminate.
Defined.

(** X4.  [_constant_folding] is idempotent: a second run on the result of a
    first returns the same graph and leaves every counter as the first run
    left it. *)
Theorem constant_folding_idempotent self graph :
  let first := _constant_folding self graph in
  _constant_folding (fst first) (snd first) = first.
Proof.
  cbv zeta. rewrite !constant_folding_scan. simpl.
  rewrite (cf_scan_empty_id (cf_scan ∅ (nodes graph)))
    by (intros n; apply cf_scan_not_foldable).
  unfold with_stats, add_constants_folded, set_nodes. simpl.
  do 3 f_equal. lia.
Qed.



(** ** Dead code elimination *)

Lemma filter_sublist_impl {A} (p q : A -> bool) (l : list A) :
  (forall x, x ∈ l -> p x = true -> q x = true) ->
  sublist (List.filter p l) (List.filter q l).
Proof.
  induction l as [|x l IH]; intros H; simpl; [done|].
  assert (sublist (List.filter p l) (List.filter q l)) as Hl
    by (apply IH; intros y Hy; apply H; by right).
  destruct (p x) eqn:Ep.
  - rewrite (H x) by (done || by left). by apply sublist_skip.
  - destruct (q x); [by apply sublist_cons | done].
Qed.

Lemma filter_ext_elem {A} (p q : A -> bool) (l : list A) :
  (forall x, x ∈ l -> p x = q x) -> List.filter p l = List.filter q l.
Proof.
  induction l as [|x l IH]; intros H; simpl; [done|].
  rewrite (H x) by (by left). rewrite IH; [done|].
  intros y Hy. apply H. by right.
Qed.

Lemma Live_outs_mono ns outs outs' t :
  (forall x, x ∈ outs -> x ∈ outs') -> Live ns outs t -> Live ns outs' t.
Proof.
  intros Hsub. induction 1 as [t Ht | n t i Hn Ht _ IH Hi].
  - apply Live_output. by apply Hsub.
  - by apply (Live_input _ _ n t i).
Qed.

Lemma Live_no_outputs ns t : ~ Live ns [] t.
Proof. induction 1 as [t Ht | n t i Hn Ht _ IH Hi]; [by apply elem_of_nil in Ht | done]. Qed.

Lemma any_output_in_mono graph outs' n :
  (forall x, x ∈ output_ids graph -> x ∈ outs') ->
  any_output_in (dce_reachable graph) n = true ->
  any_output_in (dce_reachable (with_output_ids graph outs')) n = true.
Proof.
  intros Hsub. rewrite !any_output_in_live. simpl.
  intros (t & Ht & Hl). exists t. split; [done|].
  by apply (Live_outs_mono _ (output_ids graph)).
Qed.

(** X6.  Dead code elimination never removes a node that writes a declared
    output; it removes every node when no output is declared; and a node
    that writes no tensor at all is always removed. *)
Theorem dead_code_elimination_edges self graph :
  let graph' := snd (_dead_code_elimination self graph) in
  (forall n t,
     n ∈ nodes graph -> t ∈ outputs n -> t ∈ output_ids graph ->
     n ∈ nodes graph')
  /\ (output_ids graph = [] -> nodes graph' = [])
  /\ Forall (fun n => outputs n <> []) (nodes graph').
Proof.
  cbv zeta. rewrite dead_code_elimination_keep. simpl. split; [|split].
  - intros n t Hn Ht Hout. apply elem_of_dce_keep. split; [done|].
    exists t. split; [done|]. by apply Live_output.
  - intros Hnone. destruct (dce_keep graph) as [|n l] eqn:E; [done|].
    assert (n ∈ dce_keep graph) as Hn by (rewrite E; left).
    apply elem_of_dce_keep in Hn as (_ & t & _ & Hl).
    rewrite Hnone in Hl. by apply Live_no_outputs in Hl.
  - apply Forall_forall. intros n (_ & t & Ht & _)%elem_of_dce_keep Hnil.
    rewrite Hnil in Ht. by apply elem_of_nil in Ht.
Qed.

(** The ReLU of Scenario 1 writes the declared output 3; and the same graph
    with no declared output. *)
Lemma dead_code_elimination_edges_witness :
  GraphNode_new 1 RELU "relu" [2] [3] ∅
    ∈ nodes (snd (_dead_code_elimination (ModelCompiler_new 1) scenario1_graph))
  /\ nodes (snd (_dead_code_elimination (ModelCompiler_new 1)
                   (with_output_ids scenario1_graph []))) = [].
Proof.
  split.
  - apply (proj1 (dead_code_elimination_edges (ModelCompiler_new 1)
                    scenario1_graph) _ 3).
    + right. left.
    + left.
    + left.
  - apply (proj1 (proj2 (dead_code_elimination_edges (ModelCompiler_new 1)
                           (with_output_ids scenario1_graph [])))).
    reflexivity.
Defined.

(** X7.  [_dead_code_elimination] is idempotent, statistics included: a
    second run on the result of a first removes nothing and adds 0 to
    [dead_ops_removed].  One run keeps a sublist of the nodes (same order)
    and adds exactly the number of removed nodes to [dead_ops_removed]. *)
Theorem dead_code_elimination_idempotent self graph :
  let first := _dead_code_elimination self graph in
  _dead_code_elimination (fst first) (snd first) = first
  /\ sublist (nodes (snd first)) (nodes graph)
  /\ dead_ops_removed (stats (fst first))
     = dead_ops_removed (stats self)
       + (len (nodes graph) - len (nodes (snd first)))
  /\ 0 <= len (nodes graph) - len (nodes (snd first)).
Proof.
  cbv zeta. rewrite !dead_code_elimination_keep. simpl.
  assert (dce_keep (set_nodes graph (dce_keep graph)) = dce_keep graph) as E.
  { apply (dce_keep_all (set_nodes graph (dce_keep graph))). simpl.
    intros n (_ & t & Ht & Hl)%elem_of_dce_keep.
    exists t. split; [done|]. by apply Live_dce_keep. }
  split; [|split; [apply dce_keep_sublist|split; [done|]]].
  - rewrite E. unfold with_stats, add_dead_ops_removed, set_nodes. simpl.
    do 3 f_equal. lia.
  - pose proof (sublist_length _ _ (dce_keep_sublist graph)). unfold len. lia.
Qed.

(** X8.  The worklist loop ends with an empty worklist, and the set it has
    built is the least set that contains the declared outputs and, with
    every tensor a node writes, all the inputs of that node. *)
Theorem dce_reachable_least_closed graph :
  let R := dce_reachable graph in
  snd (dce_loop (dce_fuel graph) (nodes graph)
         (list_to_set (output_ids graph)) (output_ids graph)) = []
  /\ (forall t, t ∈ output_ids graph -> t ∈ R)
  /\ closed_under_producers (nodes graph) R
  /\ (forall S : gset Z,
        (forall t, t ∈ output_ids graph -> t ∈ S) ->
        closed_under_producers (nodes graph) S ->
        R ⊆ S).
Proof.
  cbv zeta. split; [apply dce_loop_terminates|]. split; [|split].
  - intros t Ht. apply dce_reachable_spec. by apply Live_output.
  - intros n t i Hn Ht HR Hi. apply dce_reachable_spec.
    apply (Live_input _ _ n t i); [done..| |done].
    by apply dce_reachable_spec.
  - intros S Hout Hclosed t Ht. apply dce_reachable_spec in Ht.
    induction Ht as [t Ht | n t i Hn Ht _ IH Hi]; [by apply Hout|].
    by apply (Hclosed n t i).
Qed.

(** For Scenario 1 the reachable set lies inside {0, 1, 2, 3}. *)
Lemma dce_reachable_least_closed_witness :
  dce_reachable scenario1_graph ⊆ {[ 0; 1; 2; 3 ]}.
Proof.
  apply (proj2 (proj2 (proj2 (dce_reachable_least_closed scenario1_graph)))).
  - intros t Ht. apply list_elem_of_singleton in Ht as ->. set_solver.
  - intros n t i Hn Ht _ Hi.
    apply elem_of_cons in Hn as [-> | Hn].
    + simpl in Hi. set_solver.
    + apply list_elem_of_singleton in Hn as ->. simpl in Hi. set_solver.
Defined.

(** X9.  The nodes kept by dead code elimination depend on the declared
    outputs as a set, and grow with it: declaring more outputs keeps at
    least the same nodes, and listing the same outputs in another order or
    with repetitions keeps exactly the same nodes. *)
Theorem dead_code_elimination_monotone self graph outs' :
  let kept := nodes (snd (_dead_code_elimination self graph)) in
  let kept' :=
    nodes (snd (_dead_code_elimination self (with_output_ids graph outs'))) in
  ((forall t, t ∈ output_ids graph -> t ∈ outs') -> sublist kept kept')
  /\ ((forall t, t ∈ output_ids graph <-> t ∈ outs') -> kept = kept').
Proof.
  cbv zeta. rewrite !dead_code_elimination_keep. simpl. unfold dce_keep. simpl.
  split.
  - intros Hsub. apply filter_sublist_impl. intros n _.
    by apply any_output_in_mono.
  - intros Heq. apply filter_ext_elem. intros n _.
    destruct (any_output_in (dce_reachable graph) n) eqn:E1.
    + symmetry. apply (any_output_in_mono graph outs'); [|done].
      intros t. apply Heq.
    + destruct (any_output_in (dce_reachable (with_output_ids graph outs')) n)
        eqn:E2; [|done].
      rewrite <- E1.
      apply (any_output_in_mono (with_output_ids graph outs') (output_ids graph))
        in E2; [|intros t; apply Heq].
      by destruct graph.
Qed.

(** Declaring output 2 besides output 3 in Scenario 1. *)
Lemma dead_code_elimination_monotone_witness :
  sublist
    (nodes (snd (_dead_code_elimination (ModelCompiler_new 1) scenario1_graph)))
    (nodes (snd (_dead_code_elimination (ModelCompiler_new 1)
                   (with_output_ids scenario1_graph [2; 3; 3])))).
Proof.
  apply (proj1 (dead_code_elimination_monotone (ModelCompiler_new 1)
                  scenario1_graph [2; 3; 3])).
  intros t Ht. apply list_elem_of_singleton in Ht as ->. right. left.
Defined.

(** ** Operator fusion *)

Lemma fuse_count_length ns : fuse_count ns = len ns - len (fuse_scan ns).
Proof.
  remember (length ns) as k eqn:Hk. revert ns Hk.
  induction k as [k IH] using lt_wf_ind. intros ns Hk.
  destruct ns as [|n1 [|n2 rest]]; [done..|].
  rewrite fuse_scan_cons2, fuse_count_cons2.
  pose proof (IH (length (n2 :: rest)) ltac:(simpl in Hk |- *; lia)
                (n2 :: rest) eq_refl) as IHtl.
  pose proof (IH (length rest) ltac:(simpl in Hk; lia) rest eq_refl) as IHrest.
  unfold len in *. simpl length in *.
  destruct (fuse_pair n1 n2); [simpl length; lia|].
  destruct rest as [|n3 rest']; [simpl length in *; lia|].
  pose proof (IH (length rest') ltac:(simpl in Hk; lia) rest' eq_refl) as IHrest'.
  destruct (fuse_triple n1 n2 n3); simpl length in *; lia.
Qed.

Lemma fuse_scan_length ns : (length (fuse_scan ns) <= length ns)%nat.
Proof.
  pose proof (fuse_count_length ns) as Hc.
  assert (0 <= fuse_count ns); [|unfold len in Hc; lia].
  clear Hc. remember (length ns) as k eqn:Hk. revert ns Hk.
  induction k as [k IH] using lt_wf_ind. intros ns Hk.
  destruct ns as [|n1 [|n2 rest]]; [done..|].
  rewrite fuse_count_cons2.
  pose proof (IH (length (n2 :: rest)) ltac:(simpl in Hk |- *; lia)
                (n2 :: rest) eq_refl) as IHtl.
  pose proof (IH (length rest) ltac:(simpl in Hk; lia) rest eq_refl) as IHrest.
  destruct (fuse_pair n1 n2); [lia|].
  destruct rest as [|n3 rest']; [done|].
  pose proof (IH (length rest') ltac:(simpl in Hk; lia) rest' eq_refl) as IHrest'.
  destruct (fuse_triple n1 n2 n3); [lia | done].
Qed.

Lemma fuse_scan_no_producer ns :
  (forall n, n ∈ ns -> is_producer_kind (op_type n) = false) ->
  fuse_scan ns = ns.
Proof.
  induction ns as [|n ns IH]; intros H; [done|].
  rewrite fuse_scan_skip by (apply H; left). f_equal. apply IH.
  intros m Hm. apply H. by right.
Qed.

Lemma add_ops_fused_0 st : add_ops_fused st 0 = st.
Proof. destruct st; unfold add_ops_fused; simpl; f_equal; lia. Qed.

Lemma with_stats_id self : with_stats self (stats self) = self.
Proof. by destruct self. Qed.

(** A property of nodes that the fused node inherits from its chain holds
    for the whole scanned list. *)
Lemma fuse_scan_Forall (P : GraphNode -> Prop) ns :
  (forall n1 n2 f, fuse_pair n1 n2 = Some f -> P n1 -> P n2 -> P f) ->
  (forall n1 n2 n3 f,
     fuse_triple n1 n2 n3 = Some f -> P n1 -> P n2 -> P n3 -> P f) ->
  Forall P ns -> Forall P (fuse_scan ns).
Proof.
  intros Hpair Htriple.
  remember (length ns) as k eqn:Hk. revert ns Hk.
  induction k as [k IH] using lt_wf_ind. intros ns Hk HP.
  destruct ns as [|n1 [|n2 rest]]; [done..|].
  rewrite fuse_scan_cons2.
  apply Forall_cons in HP as [HP1 HPtl].
  pose proof HPtl as [HP2 HPrest]%Forall_cons.
  pose proof (IH (length (n2 :: rest)) ltac:(simpl in Hk |- *; lia)
                (n2 :: rest) eq_refl HPtl) as IHtl.
  pose proof (IH (length rest) ltac:(simpl in Hk; lia) rest eq_refl HPrest)
    as IHrest.
  destruct (fuse_pair n1 n2) as [f|] eqn:Epair.
  { apply Forall_cons. split; [by apply (Hpair n1 n2)|done]. }
  destruct rest as [|n3 rest']; [by apply Forall_cons|].
  apply Forall_cons in HPrest as [HP3 HPrest'].
  destruct (fuse_triple n1 n2 n3) as [f|] eqn:Etriple; [|by apply Forall_cons].
  apply Forall_cons. split; [by apply (Htriple n1 n2 n3)|].
  by apply (IH (length rest') ltac:(simpl in Hk; lia) rest' eq_refl).
Qed.

Section fuse_scan_projection.
Context {X : Type} (proj : GraphNode -> list X).
Context (Hpair : forall n1 n2 f,
           fuse_pair n1 n2 = Some f -> sublist (proj f) (proj n1 ++ proj n2)).
Context (Htriple : forall n1 n2 n3 f,
           fuse_triple n1 n2 n3 = Some f ->
           sublist (proj f) (proj n1 ++ proj n2 ++ proj n3)).

(** What the scanned list carries (inputs, outputs, ids) is a subsequence
    of what the list carried. *)
Lemma fuse_scan_projection_sublist ns :
  sublist (concat (map proj (fuse_scan ns))) (concat (map proj ns)).
Proof.
  remember (length ns) as k eqn:Hk. revert ns Hk.
  induction k as [k IH] using lt_wf_ind. intros ns Hk.
  destruct ns as [|n1 [|n2 rest]]; [done..|].
  rewrite fuse_scan_cons2.
  pose proof (IH (length (n2 :: rest)) ltac:(simpl in Hk |- *; lia)
                (n2 :: rest) eq_refl) as IHtl.
  pose proof (IH (length rest) ltac:(simpl in Hk; lia) rest eq_refl) as IHrest.
  destruct (fuse_pair n1 n2) as [f|] eqn:Epair.
  { simpl. rewrite (app_assoc (proj n1)). apply sublist_app; [|done].
    by apply Hpair. }
  destruct rest as [|n3 rest'].
  { change (concat (map proj (n1 :: fuse_scan [n2])))
      with (proj n1 ++ concat (map proj (fuse_scan [n2]))).
    change (concat (map proj [n1; n2]))
      with (proj n1 ++ concat (map proj [n2])).
    by apply sublist_app. }
  destruct (fuse_triple n1 n2 n3) as [f|] eqn:Etriple.
  - simpl. rewrite (app_assoc (proj n2)), (app_assoc (proj n1)).
    apply sublist_app; [|by apply (IH (length rest') ltac:(simpl in Hk; lia))].
    by apply Htriple.
  - change (concat (map proj (n1 :: fuse_scan (n2 :: n3 :: rest'))))
      with (proj n1 ++ concat (map proj (fuse_scan (n2 :: n3 :: rest')))).
    change (concat (map proj (n1 :: n2 :: n3 :: rest')))
      with (proj n1 ++ concat (map proj (n2 :: n3 :: rest'))).
    by apply sublist_app.
Qed.

Lemma concat_map_sublist (l1 l2 : list GraphNode) :
  sublist l1 l2 -> sublist (concat (map proj l1)) (concat (map proj l2)).
Proof.
  induction 1 as [|n l1 l2 _ IH|n l1 l2 _ IH]; simpl.
  - done.
  - by apply sublist_app.
  - by apply sublist_inserts_l.
Qed.
End fuse_scan_projection.

Lemma fuse_pair_id n1 n2 f : fuse_pair n1 n2 = Some f -> id f = id n1.
Proof.
  unfold fuse_pair, pair_pattern1, pair_pattern2.
  repeat case_bool_decide; simpl; try discriminate;
    destruct (_can_fuse n1 n2); try discriminate; by intros [= <-].
Qed.

Lemma fuse_triple_id n1 n2 n3 f :
  fuse_triple n1 n2 n3 = Some f -> id f = id n1.
Proof.
  unfold fuse_triple. destruct (_ && _ && _); [|discriminate].
  destruct (_can_fuse_triple n1 n2 n3); [|discriminate]. by intros [= <-].
Qed.

Lemma fuse_scan_outputs_sublist ns :
  sublist (all_outputs (fuse_scan ns)) (all_outputs ns).
Proof.
  apply (fuse_scan_projection_sublist outputs).
  - intros n1 n2 f (c & _ & _ & _ & ->)%fuse_pair_shape.
    by apply sublist_inserts_l.
  - intros n1 n2 n3 f (c1 & c2 & _ & _ & _ & _ & _ & ->)%fuse_triple_shape.
    by do 2 apply sublist_inserts_l.
Qed.

Lemma fuse_scan_inputs_sublist ns :
  sublist (all_inputs (fuse_scan ns)) (all_inputs ns).
Proof.
  apply (fuse_scan_projection_sublist inputs).
  - intros n1 n2 f (c & _ & _ & -> & _)%fuse_pair_shape.
    by apply sublist_inserts_r.
  - intros n1 n2 n3 f (c1 & c2 & _ & _ & _ & _ & -> & _)%fuse_triple_shape.
    by apply sublist_inserts_r.
Qed.

Lemma concat_map_singleton {A B} (f : A -> B) (l : list A) :
  concat (map (fun x => [f x]) l) = map f l.
Proof. induction l as [|x l IH]; simpl; [done | by rewrite IH]. Qed.

Lemma fuse_scan_ids_sublist ns :
  sublist (map id (fuse_scan ns)) (map id ns).
Proof.
  rewrite <- (concat_map_singleton id (fuse_scan ns)).
  rewrite <- (concat_map_singleton id ns).
  apply (fuse_scan_projection_sublist (fun n => [id n])).
  - intros n1 n2 f ->%fuse_pair_id. by apply sublist_inserts_r.
  - intros n1 n2 n3 f ->%fuse_triple_id. by apply sublist_inserts_r.
Qed.

(** X10.  [_operator_fusion] never lengthens the node list, and adds to
    [ops_fused] exactly the number of nodes by which the list has shrunk
    (1 for a fused pair, 2 for a fused triple); no other counter, nor the
    tensor table or the input and output ids, changes. *)
Theorem operator_fusion_counts_removed_nodes self graph :
  let self' := fst (_operator_fusion self graph) in
  let graph' := snd (_operator_fusion self graph) in
  ops_fused (stats self')
  = ops_fused (stats self) + (len (nodes graph) - len (nodes graph'))
  /\ 0 <= len (nodes graph) - len (nodes graph')
  /\ (original_ops (stats self'), optimized_ops (stats self'),
      constants_folded (stats self'), dead_ops_removed (stats self'))
     = (original_ops (stats self), optimized_ops (stats self),
        constants_folded (stats self), dead_ops_removed (stats self))
  /\ (tensors graph', input_ids graph', output_ids graph', optimized graph')
     = (tensors graph, input_ids graph, output_ids graph, optimized graph).
Proof.
  cbv zeta. rewrite operator_fusion_scan. simpl.
  rewrite fuse_count_length. split; [done|]. split; [|done].
  pose proof (fuse_scan_length (nodes graph)). unfold len. lia.
Qed.

(** X11.  One sweep of [_operator_fusion] reaches a fixed point: a second
    run on the result of a first finds nothing to fuse, returns the same
    graph and adds 0 to [ops_fused]. *)
Theorem operator_fusion_idempotent self graph :
  let first := _operator_fusion self graph in
  _operator_fusion (fst first) (snd first) = first.
Proof.
  cbv zeta. rewrite !operator_fusion_scan. simpl.
  rewrite (fuse_count_length (fuse_scan (nodes graph))).
  rewrite !fuse_scan_idempotent.
  unfold with_stats, add_ops_fused, set_nodes. simpl.
  do 3 f_equal. lia.
Qed.

(** X12.  [_operator_fusion] returns the compiler and the graph unchanged
    when the graph has fewer than two nodes, and when none of its nodes is
    a MatMul, a LayerNorm or a Conv2D (the kinds that open a pattern). *)
Theorem operator_fusion_unchanged self graph :
  ((length (nodes graph) < 2)%nat ->
   _operator_fusion self graph = (self, graph))
  /\ (Forall (fun n => op_type n ∉ [MATMUL; LAYERNORM; CONV2D]) (nodes graph) ->
      _operator_fusion self graph = (self, graph)).
Proof.
  assert (fuse_scan (nodes graph) = nodes graph ->
          _operator_fusion self graph = (self, graph)) as Hid.
  { intros E. rewrite operator_fusion_scan, fuse_count_length, E.
    rewrite Z.sub_diag, add_ops_fused_0, with_stats_id, set_nodes_id. done. }
  split; intros H; apply Hid.
  - destruct (nodes graph) as [|n1 [|n2 rest]]; [done..|]. simpl in H. lia.
  - apply fuse_scan_no_producer. intros n Hn.
    apply (proj1 (Forall_forall _ _) H) in Hn.
    unfold is_producer_kind. by apply bool_decide_eq_false.
Qed.

(** A graph of two activations, and the one-node graph [orphan_graph]. *)
Lemma operator_fusion_unchanged_witness :
  _operator_fusion (ModelCompiler_new 2) orphan_graph
  = (ModelCompiler_new 2, orphan_graph)
  /\ _operator_fusion (ModelCompiler_new 2) activations_graph
     = (ModelCompiler_new 2, activations_graph).
Proof.
  split.
  - apply (proj1 (operator_fusion_unchanged (ModelCompiler_new 2) orphan_graph)).
    simpl. lia.
  - apply (proj2 (operator_fusion_unchanged (ModelCompiler_new 2)
                    activations_graph)).
    apply (bool_decide_unpack _). vm_compute. exact I.
Defined.

(** ** The driver *)

Lemma fuse_scan_ssa ns : ssa ns -> ssa (fuse_scan ns).
Proof.
  unfold ssa. intros H.
  eapply sublist_NoDup; [exact H | apply fuse_scan_outputs_sublist].
Qed.

Lemma fuse_scan_acyclic rank ns :
  acyclic_by rank ns -> acyclic_by rank (fuse_scan ns).
Proof.
  intros H.
  assert (Forall (fun n => forall i o, i ∈ inputs n -> o ∈ outputs n ->
                                    (rank i < rank o)%nat) (fuse_scan ns)) as HF.
  { apply fuse_scan_Forall.
    - intros n1 n2 f (c & Ho1 & Hi2 & -> & ->)%fuse_pair_shape H1 H2 i o Hi Ho.
      specialize (H1 i c Hi ltac:(rewrite Ho1; left)).
      specialize (H2 c o ltac:(rewrite Hi2; left) Ho). lia.
    - intros n1 n2 n3 f
        (c1 & c2 & Ho1 & Hi2 & Ho2 & Hi3 & -> & ->)%fuse_triple_shape
        H1 H2 H3 i o Hi Ho.
      specialize (H1 i c1 Hi ltac:(rewrite Ho1; left)).
      specialize (H2 c1 c2 ltac:(rewrite Hi2; left) ltac:(rewrite Ho2; left)).
      specialize (H3 c2 o ltac:(rewrite Hi3; left) Ho). lia.
    - apply Forall_forall. intros n Hn i o. by apply (H n). }
  intros n i o Hn. by apply (proj1 (Forall_forall _ _) HF).
Qed.

Lemma compiled_nodes_fuse level graph :
  compiled_nodes level graph = live_nodes level graph
  \/ compiled_nodes level graph = fuse_scan (live_nodes level graph).
Proof. unfold compiled_nodes. case_bool_decide; [by right | by left]. Qed.

(** X13.  [compile] keeps the invariants of the data model: when no tensor
    id is written twice in the graph, none is in the compiled graph, and a
    ranking of the tensor ids under which every node's outputs rank above
    its inputs still does so for the compiled graph, so an acyclic graph
    stays acyclic. *)
Theorem compile_preserves_invariants t0 t1 self graph :
  let graph' := snd (compile t0 t1 self graph) in
  (ssa (nodes graph) -> ssa (nodes graph'))
  /\ (forall rank,
        acyclic_by rank (nodes graph) -> acyclic_by rank (nodes graph'))
  /\ (acyclic (nodes graph) -> acyclic (nodes graph')).
Proof.
  cbv zeta. rewrite compile_spec. simpl.
  set (level := optimization_level self).
  assert (forall rank, acyclic_by rank (nodes graph) ->
            acyclic_by rank (compiled_nodes level graph)) as Hacyc.
  { intros rank H.
    assert (acyclic_by rank (live_nodes level graph)) as Hl.
    { intros n i o Hn. apply (H n).
      eapply elem_of_sublist; [done | apply live_nodes_sublist]. }
    destruct (compiled_nodes_fuse level graph) as [-> | ->];
      [done | by apply fuse_scan_acyclic]. }
  split; [|split; [done|]].
  - intros H.
    assert (ssa (live_nodes level graph)) as Hl
      by (eapply ssa_sublist; [apply live_nodes_sublist | done]).
    destruct (compiled_nodes_fuse level graph) as [-> | ->];
      [done | by apply fuse_scan_ssa].
  - intros [rank H]. exists rank. by apply Hacyc.
Qed.

(** The sample graph of [create_sample_graph] writes the tensors 2, 3, 4,
    5, 7 and 8 once each. *)
Lemma compile_preserves_invariants_witness :
  ssa (nodes (snd (compile 0 0 (ModelCompiler_new 2) create_sample_graph))).
Proof.
  apply (proj1 (compile_preserves_invariants 0 0 (ModelCompiler_new 2)
                  create_sample_graph)).
  apply (bool_decide_unpack _). vm_compute. exact I.
Defined.

(** X14.  The counters after [compile] add up: the number of nodes the run
    removed, [original_ops - optimized_ops], is the sum of what the run
    added to [constants_folded], [dead_ops_removed] and [ops_fused]; none of
    the three amounts is negative, so [optimized_ops <= original_ops]. *)
Theorem compile_counters_add_up t0 t1 self graph :
  let self' := fst (compile t0 t1 self graph) in
  let folded := constants_folded (stats self') - constants_folded (stats self) in
  let dead := dead_ops_removed (stats self') - dead_ops_removed (stats self) in
  let fused := ops_fused (stats self') - ops_fused (stats self) in
  original_ops (stats self') - optimized_ops (stats self')
  = folded + dead + fused
  /\ 0 <= folded /\ 0 <= dead /\ 0 <= fused
  /\ optimized_ops (stats self') <= original_ops (stats self').
Proof.
  cbv zeta. rewrite compile_spec. simpl.
  set (level := optimization_level self).
  assert (0 <= len (nodes graph) - len (folded_nodes level graph)) as Hf.
  { unfold folded_nodes. case_bool_decide; [|lia].
    pose proof (cf_scan_length ∅ (nodes graph)). unfold len. lia. }
  assert (0 <= len (folded_nodes level graph) - len (live_nodes level graph))
    as Hd.
  { unfold live_nodes. case_bool_decide; [|unfold folded_nodes;
      rewrite bool_decide_eq_false_2 by done; lia].
    pose proof (sublist_length _ _
      (dce_keep_sublist (set_nodes graph (folded_nodes level graph)))) as Hl.
    simpl in Hl. unfold len. lia. }
  assert ((if bool_decide (level >= 2)
           then fuse_count (live_nodes level graph) else 0)
          = len (live_nodes level graph) - len (compiled_nodes level graph)
          /\ 0 <= len (live_nodes level graph) - len (compiled_nodes level graph))
    as [Hu Hu'].
  { unfold compiled_nodes. case_bool_decide; [|lia].
    rewrite fuse_count_length.
    pose proof (fuse_scan_length (live_nodes level graph)). unfold len. lia. }
  lia.
Qed.

(** X15.  The optimisation level matters only through the thresholds 1 and
    2.  At a level of 0 or less, [compile] returns the node list as it was
    and adds nothing to the three counters; at any level of 2 or more the
    graph and the statistics are those of level 2, the layout pass and the
    experimental kernel fusion of level 3 being placeholders. *)
Theorem compile_level_thresholds t0 t1 self graph :
  let self' := fst (compile t0 t1 self graph) in
  let graph' := snd (compile t0 t1 self graph) in
  (optimization_level self <= 0 ->
   nodes graph' = nodes graph
   /\ stats self'
      = mkCompilationStats (len (nodes graph)) (len (nodes graph))
          (ops_fused (stats self)) (constants_folded (stats self))
          (dead_ops_removed (stats self)) ((t1 - t0) * 1000)%float)
  /\ (optimization_level self >= 2 ->
      let level2 := compile t0 t1 (mkModelCompiler 2 (stats self)) graph in
      graph' = snd level2 /\ stats self' = stats (fst level2)).
Proof.
  cbv zeta. rewrite !compile_spec. simpl.
  set (level := optimization_level self).
  unfold compiled_nodes, live_nodes, folded_nodes. split; intros Hl.
  - rewrite !(bool_decide_eq_false_2 (level >= 1)) by lia.
    rewrite !(bool_decide_eq_false_2 (level >= 2)) by lia.
    split; [done|]. f_equal; lia.
  - rewrite !(bool_decide_eq_true_2 (level >= 1)) by lia.
    rewrite !(bool_decide_eq_true_2 (level >= 2)) by lia.
    rewrite !(bool_decide_eq_true_2 (2 >= 1)) by lia.
    rewrite !(bool_decide_eq_true_2 (2 >= 2)) by lia.
    done.
Qed.

(** Levels 0 and 3 on the sample graph. *)
Lemma compile_level_thresholds_witness :
  nodes (snd (compile 0 0 (ModelCompiler_new 0) create_sample_graph))
  = nodes create_sample_graph
  /\ snd (compile 0 0 (ModelCompiler_new 3) create_sample_graph)
     = snd (compile 0 0 (ModelCompiler_new 2) create_sample_graph).
Proof.
  split.
  - apply (proj1 (compile_level_thresholds 0 0 (ModelCompiler_new 0)
                    create_sample_graph)).
    simpl. lia.
  - apply (proj2 (compile_level_thresholds 0 0 (ModelCompiler_new 3)
                    create_sample_graph)).
    simpl. lia.
Defined.

Lemma map_id_sublist (l1 l2 : list GraphNode) :
  sublist l1 l2 -> sublist (map id l1) (map id l2).
Proof.
  intros H. rewrite <- (concat_map_singleton id l1).
  rewrite <- (concat_map_singleton id l2).
  by apply (concat_map_sublist (fun n => [id n])).
Qed.

(** X16.  [compile] introduces nothing: the node ids, the tensor ids read
    and the tensor ids written in the compiled graph are, in order,
    subsequences of those of the graph it was given.  A fused node takes
    the id of the first node of its chain. *)
Theorem compile_introduces_nothing t0 t1 self graph :
  let graph' := snd (compile t0 t1 self graph) in
  sublist (map id (nodes graph')) (map id (nodes graph))
  /\ sublist (all_inputs (nodes graph')) (all_inputs (nodes graph))
  /\ sublist (all_outputs (nodes graph')) (all_outputs (nodes graph)).
Proof.
  cbv zeta. rewrite compile_spec. simpl.
  set (level := optimization_level self).
  pose proof (live_nodes_sublist level graph) as Hl.
  destruct (compiled_nodes_fuse level graph) as [-> | ->].
  - split; [by apply map_id_sublist|].
    split; [by apply (concat_map_sublist inputs)
           | by apply (concat_map_sublist outputs)].
  - split; [|split].
    + etransitivity; [apply fuse_scan_ids_sublist | by apply map_id_sublist].
    + etransitivity; [apply fuse_scan_inputs_sublist
                     | by apply (concat_map_sublist inputs)].
    + etransitivity; [apply fuse_scan_outputs_sublist
                     | by apply (concat_map_sublist outputs)].
Qed.

(** ** Profiling *)

Lemma profile_body_stamp st n : profile_body st (stamp n) = profile_body st n.
Proof. reflexivity. Qed.

Lemma profile_fold_stamp ns st :
  foldl profile_body st (map stamp ns) = foldl profile_body st ns.
Proof.
  revert st. induction ns as [|n ns IH]; intros st; simpl; [done|].
  by rewrite profile_body_stamp, IH.
Qed.

(** X17.  [profile_graph] is idempotent: profiling the graph it has written
    to gives the same graph and the same report again; the simulated time
    depends on the kind of a node only, which profiling does not touch. *)
Theorem profile_graph_idempotent self graph :
  let first := profile_graph self graph in
  profile_graph self (fst first) = first.
Proof.
  cbv zeta. unfold profile_graph.
  destruct (profile_fold (nodes graph) (mkProfileState [] 0%float ∅))
    as (Hn & _ & _).
  cbn [fst nodes set_nodes]. rewrite Hn. simpl app.
  rewrite profile_fold_stamp, Hn. reflexivity.
Qed.

Lemma foldr_add_map_add {A} (f g : A -> Z) (l : list A) :
  foldr Z.add 0 (map (fun x => f x + g x) l)
  = foldr Z.add 0 (map f l) + foldr Z.add 0 (map g l).
Proof. induction l as [|x l IH]; simpl; lia. Qed.

Lemma one_kind_each (op : OpType) :
  foldr Z.add 0
    (map (fun o => if bool_decide (op = o) then 1 else 0) all_op_types) = 1.
Proof. destruct op; vm_compute; reflexivity. Qed.

Lemma kind_counts_add_up ns :
  foldr Z.add 0 (map (fun op => len (times_of_kind op ns)) all_op_types)
  = len ns.
Proof.
  induction ns as [|n ns IH].
  - unfold all_op_types. simpl. done.
  - rewrite (map_ext _ (fun op =>
               (if bool_decide (op_type n = op) then 1 else 0)
               + len (times_of_kind op ns))).
    + rewrite foldr_add_map_add, one_kind_each, IH.
      unfold len. simpl length. lia.
    + intros op. unfold times_of_kind, len. simpl.
      case_bool_decide; simpl length; lia.
Qed.

Lemma profile_breakdown_lookup self graph k :
  op_breakdown (snd (profile_graph self graph)) !! k
  = match times_of_name k (nodes graph) with
    | [] => None
    | t :: ts =>
        Some (op_stats_of
                (total_execution_time_ms (snd (profile_graph self graph)))
                (t :: ts))
    end.
Proof.
  unfold profile_graph.
  destruct (profile_fold (nodes graph) (mkProfileState [] 0%float ∅))
    as (_ & _ & Hk).
  simpl in *. rewrite lookup_fmap, Hk, lookup_empty.
  by destruct (times_of_name k (nodes graph)).
Qed.

(** X18.  The report of [profile_graph] accounts for every node once: the
    counts of the entries of [op_breakdown], taken over the members of
    [OpType], add up to [num_operations]; and the breakdown has no other
    entries: each key is the name of the kind of some node of the graph,
    with a positive count, the number of nodes of that kind. *)
Theorem profile_counts_add_up self graph :
  let report := snd (profile_graph self graph) in
  foldr Z.add 0 (map (count_of report) all_op_types) = num_operations report
  /\ Forall (fun entry =>
       exists n, n ∈ nodes graph
         /\ entry.1 = op_name (op_type n)
         /\ 0 < count entry.2
         /\ count entry.2
            = len (List.filter (fun m => bool_decide (op_type m = op_type n))
                     (nodes graph)))
       (map_to_list (op_breakdown report)).
Proof.
  cbv zeta. split.
  - rewrite (map_ext _ (fun op => len (times_of_kind op (nodes graph)))).
    + rewrite kind_counts_add_up. unfold profile_graph. simpl.
      destruct (profile_fold (nodes graph) (mkProfileState [] 0%float ∅))
        as (Hn & _ & _).
      simpl in Hn. rewrite Hn. unfold len. by rewrite length_map.
    + intros op. unfold count_of.
      rewrite profile_breakdown_lookup, times_of_name_kind.
      by destruct (times_of_kind op (nodes graph)).
  - apply Forall_forall. intros [k s] Hks.
    apply elem_of_map_to_list in Hks.
    rewrite profile_breakdown_lookup in Hks.
    destruct (times_of_name k (nodes graph)) as [|t ts] eqn:Et; [done|].
    injection Hks as <-.
    assert (exists n, n ∈ nodes graph /\ op_name (op_type n) = k)
      as (n & Hn & Hk).
    { unfold times_of_name in Et.
      destruct (List.filter _ (nodes graph)) as [|n l] eqn:Ef; [done|].
      assert (n ∈ List.filter
                (fun n => bool_decide (op_name (op_type n) = k)) (nodes graph))
        as Hin by (rewrite Ef; left).
      apply list_elem_of_In, filter_In in Hin as [Hin Hb].
      exists n. split; [by apply list_elem_of_In|].
      by apply bool_decide_eq_true in Hb. }
    exists n. split; [done|]. split; [done|]. simpl.
    subst k. rewrite times_of_name_kind in Et.
    split; [unfold len; simpl length; lia|].
    rewrite <- Et. unfold times_of_kind, len. by rewrite length_map.
Qed.

(** X19.  After fusion every node is a node of the list given to the pass
    or a node of one of the four fused kinds, and the profiler gives each
    node of a fused kind the simulated time 3.5. *)
Theorem fused_nodes_profile_time ns :
  Forall (fun n =>
            n ∈ ns
            \/ (op_type n ∈ fused_kinds /\ simulated_time n = 3.5%float))
    (fuse_scan ns).
Proof.
  apply fuse_scan_Forall.
  - intros n1 n2 f Hf _ _. right. revert Hf.
    unfold fuse_pair, pair_pattern1, pair_pattern2.
    repeat case_bool_decide; simpl; try discriminate;
      destruct (_can_fuse n1 n2); try discriminate; intros [= <-];
      (split; [apply (bool_decide_unpack _); vm_compute; exact I
              | reflexivity]).
  - intros n1 n2 n3 f Hf _ _ _. right. revert Hf.
    unfold fuse_triple. destruct (_ && _ && _); [|discriminate].
    destruct (_can_fuse_triple n1 n2 n3); [|discriminate]. intros [= <-].
    split; [apply (bool_decide_unpack _); vm_compute; exact I | reflexivity].
  - apply Forall_forall. intros n Hn. by left.
Qed.

(** X20.  What fusion does to the simulated times: a fused MatMul and
    activation pair had 5.0 and 0.5 and its fused node has 3.5; a fused
    LayerNorm and attention pair had 0.5 and 0.5, so fusing it raises the
    time the profiler reports; a fused Conv2D, BatchNorm, ReLU triple had
    5.0, 0.5 and 0.5. *)
Theorem fusion_changes_simulated_time n1 n2 n3 :
  (forall f, fuse_pair n1 n2 = Some f ->
     simulated_time f = 3.5%float
     /\ (simulated_time n1, simulated_time n2)
        = if bool_decide (op_type n1 = MATMUL)
          then (5%float, 0.5%float) else (0.5%float, 0.5%float))
  /\ (forall f, fuse_triple n1 n2 n3 = Some f ->
        simulated_time f = 3.5%float
        /\ (simulated_time n1, simulated_time n2, simulated_time n3)
           = (5%float, 0.5%float, 0.5%float)).
Proof.
  split; intros f.
  - unfold fuse_pair, pair_pattern1, pair_pattern2.
    destruct (decide (op_type n1 = MATMUL)) as [E1 | E1].
    + rewrite !(bool_decide_eq_true_2 _ E1).
      destruct (decide (op_type n2 = RELU)) as [E2 | E2].
      * rewrite (bool_decide_eq_true_2 _ E2).
        destruct (_can_fuse n1 n2).
        -- intros [= <-]. unfold simulated_time. rewrite E1, E2. done.
        -- rewrite E1. simpl. discriminate.
      * rewrite (bool_decide_eq_false_2 _ E2).
        destruct (decide (op_type n2 = GELU)) as [E3 | E3].
        -- rewrite (bool_decide_eq_true_2 _ E3).
           destruct (_can_fuse n1 n2).
           ++ intros [= <-]. unfold simulated_time. rewrite E1, E3. done.
           ++ rewrite E1. simpl. discriminate.
        -- rewrite (bool_decide_eq_false_2 _ E3), E1. simpl. discriminate.
    + rewrite !(bool_decide_eq_false_2 _ E1).
      destruct (decide (op_type n1 = LAYERNORM)) as [E2 | E2];
        [|rewrite (bool_decide_eq_false_2 _ E2); simpl; discriminate].
      rewrite (bool_decide_eq_true_2 _ E2).
      case_bool_decide as E3; simpl; [|discriminate].
      destruct (_can_fuse n1 n2); [|discriminate]. intros [= <-].
      unfold simulated_time. rewrite E2.
      apply elem_of_cons in E3 as [-> | ->%list_elem_of_singleton]; done.
  - unfold fuse_triple.
    case_bool_decide as E1; [|simpl; discriminate].
    case_bool_decide as E2; [|simpl; discriminate].
    case_bool_decide as E3; [|simpl; discriminate]. simpl.
    destruct (_can_fuse_triple n1 n2 n3); [|discriminate]. intros [= <-].
    unfold simulated_time. rewrite E1, E2, E3. done.
Qed.

(** A LayerNorm feeding an attention node: 0.5 and 0.5 before fusion, 3.5
    for the fused node. *)
Lemma fusion_changes_simulated_time_witness :
  simulated_time
    (_fuse_layernorm_attention (GraphNode_new 0 LAYERNORM "ln" [0] [1] ∅)
       (GraphNode_new 1 ATTENTION "attn" [1] [2] ∅)) = 3.5%float
  /\ (simulated_time (GraphNode_new 0 LAYERNORM "ln" [0] [1] ∅),
      simulated_time (GraphNode_new 1 ATTENTION "attn" [1] [2] ∅))
     = (0.5%float, 0.5%float).
Proof.
  apply (proj1 (fusion_changes_simulated_time
                  (GraphNode_new 0 LAYERNORM "ln" [0] [1] ∅)
                  (GraphNode_new 1 ATTENTION "attn" [1] [2] ∅)
                  (GraphNode_new 1 ATTENTION "attn" [1] [2] ∅))
               (_fuse_layernorm_attention
                  (GraphNode_new 0 LAYERNORM "ln" [0] [1] ∅)
                  (GraphNode_new 1 ATTENTION "attn" [1] [2] ∅))).
  vm_compute. reflexivity.
Defined.
